(** * survive.py: entity bookkeeping of the game loop

    A shallow embedding of [survive.py].  Python objects live in a heap
    indexed by references, lists hold references, and every method is an
    action of a state-and-exception monad over the game world, so that
    mutation during iteration and [list.remove] failures behave as they do
    in Python.  What the physics engine and the input layer supply is read
    from an explicit per-frame record; the random generator is a stream
    with a cursor in the world. *)

From Stdlib Require Import ZArith QArith String List Lia.
From stdpp Require Import base option list gmap.

Local Open Scope Z_scope.

(** ** Constants of the module *)

Definition WIDTH : Q := 256.
Definition HEIGHT : Q := 196.
Definition MAX_WIDTH : Q := 1000.
Definition INITIAL_ENEMIES : Z := 5.

(** ** Enumerations *)

Inductive ColType := PLAYER | ENEMY | TARGET | BULLET.

Definition ColType_value (c : ColType) : Z :=
  match c with PLAYER => 1 | ENEMY => 2 | TARGET => 3 | BULLET => 4 end.

Definition ColType_eqb (a b : ColType) : bool :=
  ColType_value a =? ColType_value b.

Inductive GameState := RUNNING | GAME_OVER | HAS_WON.

Definition GameState_value (s : GameState) : Z :=
  match s with RUNNING => 1 | GAME_OVER => 2 | HAS_WON => 3 end.

Definition GameState_eqb (a b : GameState) : bool :=
  GameState_value a =? GameState_value b.

(** ** Vectors

    Floats are idealised as rationals; no claim below depends on rounding. *)

Record Vec2d := mkVec2d { vx : Q; vy : Q }.

Definition Vec2d_add (a b : Vec2d) : Vec2d :=
  mkVec2d (vx a + vx b)%Q (vy a + vy b)%Q.

(** ** Objects *)

(** Object identity: what Python's [is] and the default [==] compare. *)
Definition ref := nat.

(** A collision shape as the callbacks see it. *)
Record Shape := mkShape { s_ref : ref; collision_type : ColType }.

(** The contact descriptor handed to collision callbacks. *)
Record Arbiter := mkArbiter {
  shapes : Shape * Shape;
  normal_from : Shape -> Vec2d
}.

Record Bullet := mkBullet {
  b_position : Vec2d;
  b_velocity : Vec2d;
  life_time : Z
}.

Record Player := mkPlayer {
  p_position : Vec2d;
  velocity : Vec2d;
  force : Vec2d;
  mass : Q;
  can_jump : bool
}.

Record Enemy := mkEnemy {
  e_position : Vec2d;
  e_radius : Q;
  lives : Z
}.

(** One body created by [space.create_circle] for a death animation; its
    position and velocity stay inside the engine. *)
Record Particle := mkParticle { p_duration : Q }.

Record DeathParticles := mkDeathParticles {
  dp_particles : list ref;
  duration : Q;
  generated : Z;
  color_scale : Q
}.

#[global] Instance Bullet_inhabited : Inhabited Bullet :=
  populate (mkBullet (mkVec2d 0 0) (mkVec2d 0 0) 0).
#[global] Instance Enemy_inhabited : Inhabited Enemy :=
  populate (mkEnemy (mkVec2d 0 0) 0 0).
#[global] Instance Particle_inhabited : Inhabited Particle :=
  populate (mkParticle 0).
#[global] Instance DeathParticles_inhabited : Inhabited DeathParticles :=
  populate (mkDeathParticles [] 0 0 0).

(** ** The world

    The fields of [Game], the object heaps its lists point into, the
    bodies currently in the physics space, and the state of the module
    level random generator (a stream and a cursor). *)

Record Game := mkGame {
  state : GameState;
  player : Player;
  enemies : list ref;
  bullets : list ref;
  particles : list ref;
  enemy_obj : gmap ref Enemy;
  bullet_obj : gmap ref Bullet;
  emitter_obj : gmap ref DeathParticles;
  particle_obj : gmap ref Particle;
  space : list ref;
  next_ref : ref;
  rand : nat -> Q;
  rand_pos : nat
}.

Definition set_state (v : GameState) (g : Game) : Game :=
  mkGame v (player g) (enemies g) (bullets g) (particles g) (enemy_obj g)
    (bullet_obj g) (emitter_obj g) (particle_obj g) (space g) (next_ref g)
    (rand g) (rand_pos g).
Definition set_player (v : Player) (g : Game) : Game :=
  mkGame (state g) v (enemies g) (bullets g) (particles g) (enemy_obj g)
    (bullet_obj g) (emitter_obj g) (particle_obj g) (space g) (next_ref g)
    (rand g) (rand_pos g).
Definition set_enemies (v : list ref) (g : Game) : Game :=
  mkGame (state g) (player g) v (bullets g) (particles g) (enemy_obj g)
    (bullet_obj g) (emitter_obj g) (particle_obj g) (space g) (next_ref g)
    (rand g) (rand_pos g).
Definition set_bullets (v : list ref) (g : Game) : Game :=
  mkGame (state g) (player g) (enemies g) v (particles g) (enemy_obj g)
    (bullet_obj g) (emitter_obj g) (particle_obj g) (space g) (next_ref g)
    (rand g) (rand_pos g).
Definition set_particles (v : list ref) (g : Game) : Game :=
  mkGame (state g) (player g) (enemies g) (bullets g) v (enemy_obj g)
    (bullet_obj g) (emitter_obj g) (particle_obj g) (space g) (next_ref g)
    (rand g) (rand_pos g).
Definition set_enemy_obj (v : gmap ref Enemy) (g : Game) : Game :=
  mkGame (state g) (player g) (enemies g) (bullets g) (particles g) v
    (bullet_obj g) (emitter_obj g) (particle_obj g) (space g) (next_ref g)
    (rand g) (rand_pos g).
Definition set_bullet_obj (v : gmap ref Bullet) (g : Game) : Game :=
  mkGame (state g) (player g) (enemies g) (bullets g) (particles g)
    (enemy_obj g) v (emitter_obj g) (particle_obj g) (space g) (next_ref g)
    (rand g) (rand_pos g).
Definition set_emitter_obj (v : gmap ref DeathParticles) (g : Game) : Game :=
  mkGame (state g) (player g) (enemies g) (bullets g) (particles g)
    (enemy_obj g) (bullet_obj g) v (particle_obj g) (space g) (next_ref g)
    (rand g) (rand_pos g).
Definition set_particle_obj (v : gmap ref Particle) (g : Game) : Game :=
  mkGame (state g) (player g) (enemies g) (bullets g) (particles g)
    (enemy_obj g) (bullet_obj g) (emitter_obj g) v (space g) (next_ref g)
    (rand g) (rand_pos g).
Definition set_space (v : list ref) (g : Game) : Game :=
  mkGame (state g) (player g) (enemies g) (bullets g) (particles g)
    (enemy_obj g) (bullet_obj g) (emitter_obj g) (particle_obj g) v
    (next_ref g) (rand g) (rand_pos g).
Definition set_next_ref (v : ref) (g : Game) : Game :=
  mkGame (state g) (player g) (enemies g) (bullets g) (particles g)
    (enemy_obj g) (bullet_obj g) (emitter_obj g) (particle_obj g) (space g)
    v (rand g) (rand_pos g).
Definition set_rand_pos (v : nat) (g : Game) : Game :=
  mkGame (state g) (player g) (enemies g) (bullets g) (particles g)
    (enemy_obj g) (bullet_obj g) (emitter_obj g) (particle_obj g) (space g)
    (next_ref g) (rand g) v.

(** ** The monad of methods

    A method runs on a world and ends normally with a value or by raising;
    the mutations made before a [raise] stay.  [OutOfFuel] is the model's
    own outcome for a loop cut short; [Game_update_never_out_of_fuel] shows
    it does not occur. *)

Inductive Exn := ValueError.

Inductive Outcome (A : Type) :=
  | Ok (a : A)
  | Raise (e : Exn)
  | OutOfFuel.
Arguments Ok {A} a.
Arguments Raise {A} e.
Arguments OutOfFuel {A}.

Definition M (A : Type) : Type := Game -> Game * Outcome A.

Definition ret {A} (a : A) : M A := fun g => (g, Ok a).

Definition bind {A B} (m : M A) (k : A -> M B) : M B :=
  fun g =>
    match m g with
    | (g', Ok a) => k a g'
    | (g', Raise e) => (g', Raise e)
    | (g', OutOfFuel) => (g', OutOfFuel)
    end.

Definition raise {A} (e : Exn) : M A := fun g => (g, Raise e).
Definition gets {A} (f : Game -> A) : M A := fun g => (g, Ok (f g)).
Definition modify (f : Game -> Game) : M unit := fun g => (f g, Ok tt).

Declare Scope method_scope.
Delimit Scope method_scope with method.
Notation "'do' x <- m ; k" := (bind m (fun x => k))
  (at level 10, x name, m at level 100, k at level 200) : method_scope.
Notation "m ;; k" := (bind m (fun _ => k))
  (at level 100, k at level 200, right associativity) : method_scope.
Local Open Scope method_scope.

(** ** Python lists *)

(** [l.remove(x)]: drop the first element equal to [x]; [None] stands for
    the [ValueError] of a missing element. *)
Fixpoint list_remove (x : ref) (l : list ref) : option (list ref) :=
  match l with
  | [] => None
  | y :: l' =>
      if Nat.eqb x y then Some l'
      else match list_remove x l' with
           | Some r => Some (y :: r)
           | None => None
           end
  end.

(** [<list attribute>.remove(x)] as a method step. *)
Definition remove_from (get : Game -> list ref)
    (set : list ref -> Game -> Game) (x : ref) : M unit :=
  fun g =>
    match list_remove x (get g) with
    | Some l => (set l g, Ok tt)
    | None => (g, Raise ValueError)
    end.

(** [for x in <list attribute>: body(x)], the list being read again at
    every step as Python's list iterator does: the iterator holds an
    index, stops when the index is past the end, and advances by one
    whatever the body did to the list. *)
Fixpoint for_in (fuel : nat) (lst : Game -> list ref) (body : ref -> M unit)
    (i : nat) : M unit :=
  fun g =>
    match lst g !! i with
    | None => (g, Ok tt)
    | Some x =>
        match fuel with
        | O => (g, OutOfFuel)
        | S fuel' =>
            match body x g with
            | (g', Ok _) => for_in fuel' lst body (S i) g'
            | (g', Raise e) => (g', Raise e)
            | (g', OutOfFuel) => (g', OutOfFuel)
            end
        end
    end.

(** [for x in xs: body(x)] over a list value that nothing mutates (a copy,
    a [range]). *)
Fixpoint for_each {X} (xs : list X) (body : X -> M unit) : M unit :=
  match xs with
  | [] => ret tt
  | x :: xs' => body x ;; for_each xs' body
  end.

(** ** What the outside supplies during one frame

    Key and mouse state as pyxel reports it, the camera's mouse
    coordinates, what [space.step] does (where it moves the bodies, which
    collision callbacks it fires and in which order), and the two float
    computations that have no rational counterpart: the heading
    [(cos a, sin a)], [a = atan2(ty - y, tx - x)], of a new bullet and
    [local_to_world] of a rotating body. *)

Inductive Key := KEY_A | KEY_D | KEY_W | MOUSE_LEFT_BUTTON.

Inductive Callback :=
  | PlayerPostSolve (arb : Arbiter)
  | PlayerSeparate (arb : Arbiter)
  | EnemyBegin (self : ref) (arb : Arbiter).

Record Frame := mkFrame {
  btn : Key -> bool;
  btnp : Key -> bool;
  mouse_x : Q;
  mouse_y : Q;
  moved : ref -> Vec2d -> Vec2d;
  integrated : Player -> Player;
  callbacks : list Callback;
  heading : Vec2d -> Vec2d -> Vec2d;
  local_to_world : ref -> Vec2d -> Vec2d
}.

Definition Qltb (a b : Q) : bool := negb (Qle_bool b a).

(** [random.uniform], [random.randint], [random.expovariate]: the next
    value of the generator's stream.  The bounds of each distribution are
    not assumed. *)
Definition random_draw : M Q :=
  fun g => (set_rand_pos (S (rand_pos g)) g, Ok (rand g (rand_pos g))).

(** A new object identity. *)
Definition alloc : M ref :=
  fun g => (set_next_ref (S (next_ref g)) g, Ok (next_ref g)).

(** ** The physics space, as far as the game's bookkeeping goes

    [space.add] links a body, [space.remove] unlinks it; unlinking a body
    that is not linked is taken to leave the space as it is. *)

Definition space_add (r : ref) : M unit :=
  modify (fun g => set_space (space g ++ [r]) g).

Definition space_remove (r : ref) : M unit :=
  modify (fun g => set_space (filter (fun x => x <> r) (space g)) g).

Definition space_create_circle (position velocity : Vec2d) : M ref :=
  do p <- alloc;
  modify (fun g => set_particle_obj (<[p := mkParticle 0]> (particle_obj g)) g);;
  space_add p;;
  ret p.

(** ** Bullet *)

Definition Bullet_life_time : Z := 150.

Definition Bullet_init (x y target_x target_y : Q) (env : Frame) : Bullet :=
  mkBullet (mkVec2d x y)
    (heading env (mkVec2d x y) (mkVec2d target_x target_y))
    Bullet_life_time.

Definition get_bullet (b : ref) : M Bullet :=
  gets (fun g => bullet_obj g !!! b).

Definition upd_bullet (b : ref) (f : Bullet -> Bullet) : M unit :=
  modify (fun g => set_bullet_obj (alter f b (bullet_obj g)) g).

Definition del_bullet (b : ref) : M unit :=
  remove_from bullets set_bullets b.

(** The callback stored by the constructor is always [Game.del_bullet]. *)
Definition Bullet_update (self : ref) : M unit :=
  do b <- get_bullet self;
  let dp := Vec2d_add (b_position b) (b_velocity b) in
  upd_bullet self (fun b => mkBullet dp (b_velocity b) (life_time b));;
  upd_bullet self
    (fun b => mkBullet (b_position b) (b_velocity b) (life_time b - 1));;
  do b <- get_bullet self;
  if life_time b <? 0 then del_bullet self else ret tt.

(** ** Player *)

Definition Player_SPEED : Q := 90.
Definition Player_JUMP_SPEED : Q := 120.

Definition player_ref : ref := 0%nat.
Definition player_shape : Shape := mkShape player_ref PLAYER.

Definition Player_update (env : Frame) (self : Player) : Player :=
  let v := velocity self in
  let mass := mass self in
  let force' := Vec2d_add (force self) (mkVec2d 0 (- mass * 200))%Q in
  let v :=
    if btn env KEY_A then
      if can_jump self then mkVec2d (- Player_SPEED)%Q (vy v)
      else mkVec2d (- Player_SPEED / 2)%Q (vy v)
    else if btn env KEY_D then
      if can_jump self then mkVec2d Player_SPEED (vy v)
      else mkVec2d (Player_SPEED / 2)%Q (vy v)
    else
      let r := if can_jump self then (1 # 2)%Q else 1%Q in
      mkVec2d (vx v * r)%Q (vy v) in
  let v :=
    if can_jump self && btnp env KEY_W then mkVec2d (vx v) Player_JUMP_SPEED
    else v in
  mkPlayer (p_position self) v force' mass (can_jump self).

Definition set_can_jump (c : bool) (self : Player) : Player :=
  mkPlayer (p_position self) (velocity self) (force self) (mass self) c.

Definition Player_col_start (arb : Arbiter) : M unit :=
  let n := normal_from arb player_shape in
  modify (fun g =>
    set_player (set_can_jump (Qle_bool (vy n) (- (1 # 2))) (player g)) g).

Definition Player_col_end (arb : Arbiter) : M unit :=
  modify (fun g => set_player (set_can_jump false (player g)) g).

(** ** Game: messages *)

Definition handle_hit_player (sender : ref) : M unit :=
  modify (set_state GAME_OVER).

(** [getattr(self, "handle_" + msg, None)]: the class has one handler. *)
Definition Game_message (msg : string) (sender : ref) : M unit :=
  if String.eqb msg "hit_player" then handle_hit_player sender
  else ret tt.

(** ** Enemy *)

Definition Enemy_lives : Z := 4.

Definition Enemy_begin (self : ref) (arb : Arbiter) : M bool :=
  let '(shape_a, shape_b) := shapes arb in
  let '(player, enemy) :=
    if ColType_eqb (collision_type shape_a) PLAYER then (shape_a, shape_b)
    else (shape_b, shape_b) in
  let n := normal_from arb player in
  (if Qltb (vy n) (1 # 4) then space_remove (s_ref enemy)
   else Game_message "hit_player" self);;
  ret true.

(** ** DeathParticles

    [self.space] is the game's space and [remove_me] is always
    [Game.remove_death_particle]. *)

Definition MAX_DURATION : Q := 30.
Definition MAX_GENERATED : Z := 100.

Definition get_emitter (d : ref) : M DeathParticles :=
  gets (fun g => emitter_obj g !!! d).

Definition upd_emitter (d : ref) (f : DeathParticles -> DeathParticles)
    : M unit :=
  modify (fun g => set_emitter_obj (alter f d (emitter_obj g)) g).

Definition set_dp_particles (l : list ref) (d : DeathParticles)
    : DeathParticles :=
  mkDeathParticles l (duration d) (generated d) (color_scale d).

Definition set_generated (n : Z) (d : DeathParticles) : DeathParticles :=
  mkDeathParticles (dp_particles d) (duration d) n (color_scale d).

Definition upd_particle (p : ref) (f : Particle -> Particle) : M unit :=
  modify (fun g => set_particle_obj (alter f p (particle_obj g)) g).

Definition DeathParticles_init : M ref :=
  do self <- alloc;
  modify (fun g =>
    set_emitter_obj
      (<[self := mkDeathParticles [] MAX_DURATION 0 (MAX_DURATION / 6)%Q]>
         (emitter_obj g)) g);;
  ret self.

Definition remove_death_particle (p : ref) : M unit :=
  remove_from particles set_particles p.

Definition keep_generating (self : ref) : M bool :=
  do d <- get_emitter self;
  ret (generated d <? MAX_GENERATED).

Definition emmit (self : ref) (position velocity : Vec2d) : M unit :=
  do keep <- keep_generating self;
  if negb keep then ret tt
  else
    upd_emitter self (fun d => set_generated (generated d + 1) d);;
    do p <- space_create_circle position velocity;
    do d <- get_emitter self;
    do x <- random_draw;
    upd_particle p (fun _ => mkParticle (duration d - x)%Q);;
    upd_emitter self (fun d => set_dp_particles (dp_particles d ++ [p]) d).

(** [range(batch_size)]: nothing for a batch size below one. *)
Definition range (n : Z) : list nat := seq 0 (Z.to_nat n).

Definition generate_particles (self : ref) (position : Vec2d)
    (batch_size : Z) : M unit :=
  do keep <- keep_generating self;
  if negb keep then ret tt
  else
    for_each (range batch_size) (fun _ =>
      do u1 <- random_draw;
      do s1 <- random_draw;
      do u2 <- random_draw;
      do s2 <- random_draw;
      let velocity := mkVec2d (u1 * s1)%Q (u2 * s2)%Q in
      emmit self position velocity).

(** The random rotation of a particle's velocity takes one value from the
    generator; the velocity itself is the engine's. *)
Definition DeathParticles_update (self : ref) : M unit :=
  do d <- get_emitter self;
  for_each (dp_particles d) (fun p =>
    do _angle <- random_draw;
    upd_particle p (fun q => mkParticle (p_duration q - 1)%Q);;
    do q <- gets (fun g => particle_obj g !!! p);
    if Qle_bool (p_duration q) 0 then
      remove_from (fun g => dp_particles (emitter_obj g !!! self))
        (fun l g =>
           set_emitter_obj (alter (set_dp_particles l) self (emitter_obj g)) g)
        p;;
      space_remove p
    else ret tt);;
  do d <- get_emitter self;
  if (length (dp_particles d) =? 0)%nat then remove_death_particle self
  else ret tt.

(** ** Game *)

Definition MAX_BULLETS : nat := 10.

Definition get_enemy (e : ref) : M Enemy :=
  gets (fun g => enemy_obj g !!! e).

Definition upd_enemy (e : ref) (f : Enemy -> Enemy) : M unit :=
  modify (fun g => set_enemy_obj (alter f e (enemy_obj g)) g).

Definition del_enemy (env : Frame) (e : ref) : M unit :=
  remove_from enemies set_enemies e;;
  space_remove e;;
  do death <- DeathParticles_init;
  do u <- random_draw;
  let enemy_position := local_to_world env e (mkVec2d u (-3)) in
  generate_particles death enemy_position 100;;
  modify (fun g => set_particles (particles g ++ [death]) g).

Definition verify_bullet_hit_enemies (env : Frame) (b : ref) : M unit :=
  do bo <- get_bullet b;
  let bx := vx (b_position bo) in
  let by_ := vy (b_position bo) in
  do n <- gets (fun g => length (enemies g));
  for_in n enemies (fun e =>
    do eo <- get_enemy e;
    let ex := vx (e_position eo) in
    let ey := vy (e_position eo) in
    let dx := ((bx - ex) ^ 2)%Q in
    let dy := ((by_ - ey) ^ 2)%Q in
    if Qle_bool (dx + dy) (e_radius eo ^ 2) then
      del_bullet b;;
      upd_enemy e (fun eo => mkEnemy (e_position eo) (e_radius eo) (lives eo - 1));;
      do eo <- get_enemy e;
      if lives eo <=? 0 then del_enemy env e else ret tt
    else ret tt) 0.

Definition correct_mouse_distance (env : Frame) (px : Q) : Q * Q :=
  ((px + mouse_x env - WIDTH / 2)%Q, mouse_y env).

Definition shoot_bullet (env : Frame) : M unit :=
  do n <- gets (fun g => length (bullets g));
  if (MAX_BULLETS <? n)%nat then ret tt
  else
    do p <- gets (fun g => p_position (player g));
    let '(mx, my) := correct_mouse_distance env (vx p) in
    do b <- alloc;
    modify (fun g =>
      set_bullet_obj
        (<[b := Bullet_init (vx p) (vy p) mx my env]> (bullet_obj g)) g);;
    modify (fun g => set_bullets (bullets g ++ [b]) g).

(** [space.step]: the engine moves the bodies that are in the space and
    fires the registered callbacks. *)
Definition dispatch (c : Callback) : M unit :=
  match c with
  | PlayerPostSolve arb => Player_col_start arb
  | PlayerSeparate arb => Player_col_end arb
  | EnemyBegin self arb => do _ <- Enemy_begin self arb; ret tt
  end.

Definition space_step (env : Frame) : M unit :=
  modify (fun g =>
    set_enemy_obj
      (map_imap (fun r e =>
         Some (if bool_decide (r ∈ space g)
               then mkEnemy (moved env r (e_position e)) (e_radius e) (lives e)
               else e)) (enemy_obj g)) g);;
  modify (fun g =>
    if bool_decide (player_ref ∈ space g) then
      let p := integrated env (player g) in
      set_player
        (mkPlayer (p_position p) (velocity p) (force p) (mass (player g))
           (can_jump (player g))) g
    else g);;
  for_each (callbacks env) dispatch.

(** [camera.follow] only moves the camera, which the frame record stands
    for; it has no counterpart here. *)
Definition Game_update (env : Frame) : M unit :=
  space_step env;;
  do st <- gets state;
  (if negb (GameState_eqb st GAME_OVER)
   then modify (fun g => set_player (Player_update env (player g)) g)
   else ret tt);;
  do nb <- gets (fun g => length (bullets g));
  for_in nb bullets (fun b =>
    Bullet_update b;;
    verify_bullet_hit_enemies env b) 0;;
  do np <- gets (fun g => length (particles g));
  for_in np particles DeathParticles_update 0;;
  do st <- gets state;
  (if GameState_eqb st RUNNING && btnp env MOUSE_LEFT_BUTTON
   then shoot_bullet env else ret tt);;
  do ne <- gets (fun g => length (enemies g));
  if (ne =? 0)%nat then modify (set_state HAS_WON) else ret tt.

(** ** Construction

    [Enemy.random] draws, in this order, [vx], [vy], [x], [y], the angular
    velocity and (inside [Enemy.__init__]) the radius; the velocities
    belong to the engine. *)

Definition Enemy_random : M Enemy :=
  do _vx <- random_draw;
  do _vy <- random_draw;
  do x <- random_draw;
  do y <- random_draw;
  do _angular_velocity <- random_draw;
  do radius <- random_draw;
  ret (mkEnemy (mkVec2d x y) radius Enemy_lives).

Definition Enemy_register (e : ref) : M unit := space_add e.

Definition empty_world (player_mass : Q) (rnd : nat -> Q) : Game :=
  mkGame RUNNING
    (mkPlayer (mkVec2d 50 50) (mkVec2d 0 0) (mkVec2d 0 0) player_mass false)
    [] [] [] ∅ ∅ ∅ ∅ [] 1%nat rnd 0%nat.

Definition Game_init (player_mass : Q) (rnd : nat -> Q) : Game :=
  fst ((modify (set_state RUNNING);;
        space_add player_ref;;
        for_each (range INITIAL_ENEMIES) (fun _ =>
          do eo <- Enemy_random;
          do e <- alloc;
          modify (fun g => set_enemy_obj (<[e := eo]> (enemy_obj g)) g);;
          Enemy_register e;;
          modify (fun g => set_enemies (enemies g ++ [e]) g)))
       (empty_world player_mass rnd)).

(** Running the frames the engine delivers, one [Game.update] each, until
    one raises. *)
Fixpoint run (frames : list Frame) : M unit :=
  match frames with
  | [] => ret tt
  | env :: rest => Game_update env;; run rest
  end.

(** A caller's use of one emitter: any sequence of its three methods. *)
Inductive Call :=
  | CallGenerate (position : Vec2d) (batch_size : Z)
  | CallEmmit (position velocity : Vec2d)
  | CallUpdate.

Definition call (self : ref) (c : Call) : M unit :=
  match c with
  | CallGenerate position batch_size =>
      generate_particles self position batch_size
  | CallEmmit position velocity => emmit self position velocity
  | CallUpdate => DeathParticles_update self
  end.

(** The world after the calls, a raising call not stopping the caller. *)
Fixpoint calls (self : ref) (cs : list Call) (g : Game) : Game :=
  match cs with
  | [] => g
  | c :: cs' => calls self cs' (fst (call self c g))
  end.

(** [n] calls of a method in immediate succession. *)
Fixpoint times (n : nat) (m : M unit) : M unit :=
  match n with
  | O => ret tt
  | S n' => m;; times n' m
  end.

(** ** Concrete frames and worlds used by the examples *)

Definition origin : Vec2d := mkVec2d 0 0.

(** A contact whose normal is [n] seen from the player and [-n] seen from
    the other shape. *)
Definition contact (a b : Shape) (n : Vec2d) : Arbiter :=
  mkArbiter (a, b)
    (fun s => if Nat.eqb (s_ref s) player_ref then n
              else mkVec2d (- vx n)%Q (- vy n)%Q).

Definition enemy_shape (e : ref) : Shape := mkShape e ENEMY.

(** Nothing pressed, nothing moves, no contact; bullets fly along +x. *)
Definition idle_frame : Frame :=
  mkFrame (fun _ => false) (fun _ => false) 0 0 (fun _ p => p) (fun p => p)
    [] (fun _ _ => mkVec2d 1 0) (fun _ p => p).

Definition with_click (env : Frame) : Frame :=
  mkFrame (btn env)
    (fun k => match k with MOUSE_LEFT_BUTTON => true | _ => btnp env k end)
    (mouse_x env) (mouse_y env) (moved env) (integrated env) (callbacks env)
    (heading env) (local_to_world env).

Definition with_callbacks (cs : list Callback) (env : Frame) : Frame :=
  mkFrame (btn env) (btnp env) (mouse_x env) (mouse_y env) (moved env)
    (integrated env) cs (heading env) (local_to_world env).

(** The step puts the enemies listed in [targets] at [at_] and every other
    enemy far away. *)
Definition with_enemies_at (targets : list ref) (at_ : Vec2d) (env : Frame)
    : Frame :=
  mkFrame (btn env) (btnp env) (mouse_x env) (mouse_y env)
    (fun r _ => if existsb (Nat.eqb r) targets then at_
                else mkVec2d 900 900)
    (integrated env) (callbacks env) (heading env) (local_to_world env).

Definition click_frame : Frame := with_click idle_frame.

(** Five enemies of radius 4, the player at (50, 50). *)
Definition start : Game := Game_init 1 (fun _ => 4%Q).

(** A frame in which the bullet fired in the frame before, now at
    (51, 50), meets enemy [e], and the player fires again. *)
Definition hit_and_fire (e : ref) : Frame :=
  with_click (with_enemies_at [e] (mkVec2d 51 50) idle_frame).

(** Twenty shots, each meeting its enemy one frame later: four for each of
    the enemies 1 to 4 and three for enemy 5; the twentieth bullet is left
    in flight. *)
Definition nineteen_hits : list Frame :=
  click_frame ::
  flat_map (fun e => repeat (hit_and_fire e) 4) [1; 2; 3; 4]%nat ++
  repeat (hit_and_fire 5%nat) 3.

(** Enemy 5 touches the player from the side while the last bullet flies. *)
Definition side_hit_frame : Frame :=
  with_callbacks
    [EnemyBegin 5%nat (contact player_shape (enemy_shape 5%nat) (mkVec2d 0 1))]
    (with_enemies_at [] origin idle_frame).

(** The last bullet, now at (52, 50), meets enemy 5. *)
Definition last_hit_frame : Frame :=
  with_enemies_at [5%nat] (mkVec2d 52 50) idle_frame.

(** Two enemies overlap the bullet in one frame. *)
Definition two_enemies_frame : Frame :=
  with_enemies_at [1; 2]%nat (mkVec2d 51 50) idle_frame.

(** A concrete player in the air, and a frame with every key down. *)
Definition airborne : Player :=
  mkPlayer (mkVec2d 50 50) (mkVec2d 3 7) origin 1 false.

Definition all_keys_frame : Frame :=
  mkFrame (fun _ => true) (fun _ => true) 0 0 (fun _ p => p) (fun p => p)
    [] (fun _ _ => mkVec2d 1 0) (fun _ p => p).

(** The bullet fired in the first frame flies for 150 frames and, in the
    frame its life time runs out, is at (201, 50) where enemy 1 is. *)
Definition expiry_hit_frames : list Frame :=
  click_frame :: repeat idle_frame 150 ++
  [with_enemies_at [1%nat] (mkVec2d 201 50) idle_frame].

(** ** Properties of worlds *)

(** The world a game is in after the frames of a run. *)
Definition reached (player_mass : Q) (rnd : nat -> Q) (frames : list Frame)
    : Game :=
  fst (run frames (Game_init player_mass rnd)).

Definition not_running (g : Game) : Prop := state g <> RUNNING.

Definition won_means_no_enemies (g : Game) : Prop :=
  state g = HAS_WON -> enemies g = [].

(** An enemy object is in [Game.enemies] exactly while it has lives left. *)
Definition lives_ok (g : Game) (r : ref) (e : Enemy) : Prop :=
  0 <= lives e <= 4 /\ (r ∈ enemies g <-> 0 < lives e).

Definition enemies_wf (g : Game) : Prop :=
  NoDup (enemies g) /\
  (forall r, r ∈ enemies g -> is_Some (enemy_obj g !! r)) /\
  map_Forall (lives_ok g) (enemy_obj g).

Definition same_enemies (l : list ref) (h : gmap ref Enemy) (g : Game)
    : Prop :=
  enemies g = l /\ enemy_obj g = h.

(** The bullet object after one [Bullet.update]. *)
Definition Bullet_moved (b : Bullet) : Bullet :=
  mkBullet (Vec2d_add (b_position b) (b_velocity b)) (b_velocity b)
    (life_time b - 1).

Definition put_bullet (self : ref) (b : Bullet) (g : Game) : Game :=
  set_bullet_obj (<[self := b]> (bullet_obj g)) g.

(** The emitter [self], created when [base] was the next free identity,
    has emitted at most [MAX_GENERATED] particles, holds no more than it
    has emitted, and every body created since is one of them. *)
Definition emitter_ok (self : ref) (base : nat) (g : Game) : Prop :=
  exists d,
    emitter_obj g !! self = Some d /\
    0 <= generated d <= MAX_GENERATED /\
    Z.of_nat (length (dp_particles d)) <= generated d /\
    Z.of_nat (next_ref g) = Z.of_nat base + generated d.

(** ** Definitions for the further properties *)

(** The emitter [self] has emitted [gen] particles and holds [len]. *)
Definition emitter_at (self : ref) (gen : Z) (len : nat) (g : Game) : Prop :=
  exists d,
    emitter_obj g !! self = Some d /\
    generated d = gen /\ length (dp_particles d) = len.

(** [e] is not a body of the space and is an identity already given. *)
Definition out_of_space (e : ref) (g : Game) : Prop :=
  (e ∉ space g) /\ (e < next_ref g)%nat.

(** What [del_enemy] and the emitter leave alone. *)
Definition same_lists (st : GameState) (bs ps : list ref) (g : Game)
    : Prop :=
  state g = st /\ bullets g = bs /\ particles g = ps.

Definition bullets_capped (g : Game) : Prop :=
  (length (bullets g) <= S MAX_BULLETS)%nat.

(** The listed bullets are distinct objects created earlier, each with a
    life time between 0 and the initial 150. *)
Definition bullets_wf (g : Game) : Prop :=
  NoDup (bullets g) /\
  forall b, b ∈ bullets g ->
    (b < next_ref g)%nat /\
    exists o, bullet_obj g !! b = Some o /\
              0 <= life_time o <= Bullet_life_time.

(** The game is over or won and its bullets are among those of [l]. *)
Definition stopped_with (l : list ref) (g : Game) : Prop :=
  state g <> RUNNING /\ bullets g `sublist_of` l.

(** The enemies are among those of [l], and each enemy object of [h] is
    still there with its radius and no more lives than it had. *)
Definition enemies_below (l : list ref) (h : gmap ref Enemy) (g : Game)
    : Prop :=
  enemies g `sublist_of` l /\
  forall r e, h !! r = Some e ->
    exists e', enemy_obj g !! r = Some e' /\
               lives e' <= lives e /\ e_radius e' = e_radius e.

(** The frame [env] with other keys and buttons down. *)
Definition with_keys (held pressed : Key -> bool) (env : Frame) : Frame :=
  mkFrame held pressed (mouse_x env) (mouse_y env) (moved env)
    (integrated env) (callbacks env) (heading env) (local_to_world env).

Definition game_over (g : Game) : Prop := state g = GAME_OVER.

(** The hit test of [verify_bullet_hit_enemies]: the point [p] is within
    the radius of the enemy. *)
Definition overlaps (p : Vec2d) (eo : Enemy) : bool :=
  Qle_bool
    ((vx p - vx (e_position eo)) ^ 2 + (vy p - vy (e_position eo)) ^ 2)
    (e_radius eo ^ 2).

(** Bullet [b2], with the fields of [o2], heads the bullet list, and
    bullet [b1] is not in it. *)
Definition heads_untouched (b1 b2 : ref) (o2 : Bullet) (g : Game) : Prop :=
  bullets g !! 0%nat = Some b2 /\
  NoDup (bullets g) /\
  bullet_obj g !! b2 = Some o2 /\
  (b1 ∉ bullets g).

(** A world with two bullets in flight, the older one in its last frame. *)
Definition two_bullets_world : Game :=
  fst (run (click_frame :: click_frame :: repeat idle_frame 149) start).

(** Particle [p] still has time left after one more frame. *)
Definition alive_after (g : Game) (p : ref) : bool :=
  negb (Qle_bool (p_duration (particle_obj g !!! p) - 1) 0).

(** One step of the loop of [DeathParticles.update]. *)
Definition age_particle (self p : ref) : M unit :=
  do _angle <- random_draw;
  upd_particle p (fun q => mkParticle (p_duration q - 1)%Q);;
  do q <- gets (fun g => particle_obj g !!! p);
  if Qle_bool (p_duration q) 0 then
    remove_from (fun g => dp_particles (emitter_obj g !!! self))
      (fun l g =>
         set_emitter_obj (alter (set_dp_particles l) self (emitter_obj g)) g)
      p;;
    space_remove p
  else ret tt.

(** The world after particle [x], whose object was [q], got one frame
    older. *)
Definition aged (x : ref) (q : Particle) (g : Game) : Game :=
  set_particle_obj (<[x := mkParticle (p_duration q - 1)%Q]> (particle_obj g))
    (set_rand_pos (S (rand_pos g)) g).

(** The world after the emitter's list became [l] and [x] left the
    space. *)
Definition expired (self x : ref) (l : list ref) (d : DeathParticles)
    (g : Game) : Game :=
  set_space (filter (fun y => y <> x) (space g))
    (set_emitter_obj (<[self := set_dp_particles l d]> (emitter_obj g)) g).

(** The start of the game after enemy 1 was deleted: emitter 6 with its
    100 particles. *)
Definition emitter_world : Game := fst (del_enemy idle_frame 1%nat start).

(** ** Drawing

    The palette constants of pyxel that the module names. *)
Inductive Color :=
  | COLOR_CYAN | COLOR_YELLOW | COLOR_PINK | COLOR_RED | COLOR_BROWN
  | COLOR_WHITE | COLOR_ORANGE | COLOR_PURPLE | COLOR_GRAY | COLOR_PEACH.

Definition Enemy_get_color (self : Enemy) : Color :=
  if lives self =? 4 then COLOR_CYAN
  else if lives self =? 3 then COLOR_YELLOW
  else if lives self =? 2 then COLOR_PINK
  else if lives self =? 1 then COLOR_RED
  else COLOR_BROWN.

(** [int(x)] of a float: the integer part, rounded towards zero. *)
Definition int (q : Q) : Z := Z.quot (Qnum q) (Zpos (Qden q)).

(** The arguments of the [camera.blt] call of [Player.draw]; [bb] is the
    body's bounding box, which the engine computes. *)
Record Blt := mkBlt {
  blt_x : Q; blt_y : Q; blt_img : Z;
  blt_u : Z; blt_v : Z; blt_w : Z; blt_h : Z;
  blt_colkey : Color
}.

Definition Player_draw (bb : Q * Q * Q * Q) (self : Player) : Blt :=
  let '(x, y, _right, _top) := bb in
  let sign := if Qle_bool 0 (vx (velocity self)) then 1 else -1 in
  let idx := int (vx (p_position self) / 2) mod 4 in
  let u := 8 * idx in
  mkBlt x y 0 u 0 (sign * 8) 8 COLOR_YELLOW.

(** * Reasoning about methods *)

Arguments set_state _ _ /.
Arguments set_player _ _ /.
Arguments set_enemies _ _ /.
Arguments set_bullets _ _ /.
Arguments set_particles _ _ /.
Arguments set_enemy_obj _ _ /.
Arguments set_bullet_obj _ _ /.
Arguments set_emitter_obj _ _ /.
Arguments set_particle_obj _ _ /.
Arguments set_space _ _ /.
Arguments set_next_ref _ _ /.
Arguments set_rand_pos _ _ /.

(** [preserves P m]: whatever way [m] ends, it leaves [P] true. *)
Definition preserves {A} (P : Game -> Prop) (m : M A) : Prop :=
  forall g, P g -> P (fst (m g)).

(** [fueled m]: [m] never ends for lack of fuel. *)
Definition fueled {A} (m : M A) : Prop :=
  forall g, snd (m g) <> OutOfFuel.

(** [ends_with m Q]: every normal end of [m] is in a world where [Q]. *)
Definition ends_with {A} (m : M A) (Q : Game -> Prop) : Prop :=
  forall g g' a, m g = (g', Ok a) -> Q g'.

Section Preservation.
Context (P : Game -> Prop).

Lemma preserves_ret {A} (a : A) : preserves P (ret a).
Proof. intros g H; exact H. Qed.

Lemma preserves_raise {A} e : preserves P (@raise A e).
Proof. intros g H; exact H. Qed.

Lemma preserves_gets {A} (f : Game -> A) : preserves P (gets f).
Proof. intros g H; exact H. Qed.

Lemma preserves_modify f :
  (forall g, P g -> P (f g)) -> preserves P (modify f).
Proof. intros Hf g H; apply Hf, H. Qed.

Lemma preserves_bind {A B} (m : M A) (k : A -> M B) :
  preserves P m -> (forall a, preserves P (k a)) -> preserves P (bind m k).
Proof.
  intros Hm Hk g H. unfold bind.
  specialize (Hm g H). destruct (m g) as [g' [a | e |]]; cbn in *; auto.
  apply Hk, Hm.
Qed.

Lemma preserves_alloc :
  (forall g, P g -> P (set_next_ref (S (next_ref g)) g)) ->
  preserves P alloc.
Proof. intros Hf g H; apply Hf, H. Qed.

Lemma preserves_random_draw :
  (forall g, P g -> P (set_rand_pos (S (rand_pos g)) g)) ->
  preserves P random_draw.
Proof. intros Hf g H; apply Hf, H. Qed.

Lemma preserves_remove_from get set x :
  (forall g l, P g -> list_remove x (get g) = Some l -> P (set l g)) ->
  preserves P (remove_from get set x).
Proof.
  intros Hf g H. unfold remove_from.
  destruct (list_remove x (get g)) eqn:E; cbn; eauto.
Qed.

Lemma preserves_for_each {X} (xs : list X) body :
  (forall x, preserves P (body x)) -> preserves P (for_each xs body).
Proof.
  intros Hb. induction xs as [| x xs IH]; cbn.
  - apply preserves_ret.
  - apply preserves_bind; auto.
Qed.

(** The loop rule: the body may rely on its element being in the list
    at the moment it runs. *)
Lemma for_in_invariant lst body :
  (forall x g, P g -> x ∈ lst g -> P (fst (body x g))) ->
  forall fuel i, preserves P (for_in fuel lst body i).
Proof.
  intros Hb fuel. induction fuel as [| fuel IH]; intros i g H; cbn.
  - destruct (lst g !! i); exact H.
  - destruct (lst g !! i) as [x |] eqn:E; [| exact H].
    assert (Hx : x ∈ lst g) by (eapply list_elem_of_lookup_2; eauto).
    specialize (Hb x g H Hx).
    destruct (body x g) as [g' [a | e |]]; cbn in *; auto.
    apply IH, Hb.
Qed.

Lemma preserves_for_in lst body fuel i :
  (forall x, preserves P (body x)) -> preserves P (for_in fuel lst body i).
Proof. intros Hb. apply for_in_invariant. intros x g H _. apply Hb, H. Qed.
End Preservation.

(** What a normally ending [bind] went through. *)
Lemma bind_Ok_inv {A B} (m : M A) (k : A -> M B) g g' b :
  bind m k g = (g', Ok b) ->
  exists a g1, m g = (g1, Ok a) /\ k a g1 = (g', Ok b).
Proof.
  unfold bind. destruct (m g) as [g1 [a | e |]]; intros E;
    [eauto | discriminate | discriminate].
Qed.

Ltac head_of t :=
  lazymatch t with
  | ?f _ => head_of f
  | _ => t
  end.

(** One step of a preservation proof along the structure of a method;
    facts already in the context close a call outright. *)
Ltac pres_step :=
  first
    [ solve [eauto 2]
    | lazymatch goal with
      | |- preserves _ (bind _ _) => apply preserves_bind; [| intro]
      | |- preserves _ (ret _) => apply preserves_ret
      | |- preserves _ (raise _) => apply preserves_raise
      | |- preserves _ (gets _) => apply preserves_gets
      | |- preserves _ (modify _) => apply preserves_modify; intros ? ?
      | |- preserves _ alloc => apply preserves_alloc; intros ? ?
      | |- preserves _ random_draw =>
          apply preserves_random_draw; intros ? ?
      | |- preserves _ (remove_from _ _ _) =>
          apply preserves_remove_from; intros ? ? ? ?
      | |- preserves _ (for_each _ _) => apply preserves_for_each; intro
      | |- preserves _ (for_in _ _ _ _) => apply preserves_for_in; intro
      | |- preserves _ (if ?c then _ else _) => destruct c
      | |- preserves _ (match ?c with _ => _ end) => destruct c
      | |- preserves _ ?m => let h := head_of m in progress unfold h
      end ].

Ltac pres := repeat pres_step.

(** * Comparisons of rationals *)

Lemma Qltb_lt a b : Qltb a b = true <-> (a < b)%Q.
Proof.
  unfold Qltb. rewrite negb_true_iff, <- not_true_iff_false, Qle_bool_iff.
  split; [apply Qnot_le_lt | apply Qlt_not_le].
Qed.

Lemma Qltb_ge a b : Qltb a b = false <-> (b <= a)%Q.
Proof. unfold Qltb. rewrite negb_false_iff. apply Qle_bool_iff. Qed.

(** * Player *)

(** C10: with [can_jump = false] a call of [Player.update] leaves the
    vertical velocity as it was, whatever keys are down; the vertical
    velocity is set to [JUMP_SPEED] only when [can_jump] holds and the
    jump key was just pressed, and is untouched otherwise. *)
Theorem C10_jump_needs_can_jump (env : Frame) (self : Player) :
  can_jump self = false ->
  vy (velocity (Player_update env self)) = vy (velocity self) /\
  forall (env' : Frame) (p : Player),
    vy (velocity (Player_update env' p)) =
      if can_jump p && btnp env' KEY_W then Player_JUMP_SPEED
      else vy (velocity p).
Proof.
  intros Hair. split.
  - unfold Player_update. rewrite Hair. cbn.
    destruct (btn env KEY_A), (btn env KEY_D); reflexivity.
  - intros env' p. unfold Player_update.
    destruct (can_jump p), (btnp env' KEY_W), (btn env' KEY_A),
      (btn env' KEY_D); reflexivity.
Qed.

Lemma C10_jump_needs_can_jump_witness :
  vy (velocity (Player_update all_keys_frame airborne)) = 7%Q.
Proof.
  exact (proj1 (C10_jump_needs_can_jump all_keys_frame airborne eq_refl)).
Defined.

(** * Enemy: the begin-collision callback *)

(** C1, as the claim states it, fails: with the player as first shape, a
    normal of y = 0 (below 0.25) removes the enemy and sends nothing, and
    a normal of y = 1 sends "hit_player" and removes nothing. *)
Lemma C1_branches_are_the_other_way_round :
  let low := contact player_shape (enemy_shape 1%nat) (mkVec2d 0 0) in
  let high := contact player_shape (enemy_shape 1%nat) (mkVec2d 0 1) in
  (vy (normal_from low player_shape) < 1 # 4)%Q /\
  state (fst (Enemy_begin 1%nat low start)) = RUNNING /\
  space (fst (Enemy_begin 1%nat low start)) = [0; 2; 3; 4; 5]%nat /\
  (1 # 4 <= vy (normal_from high player_shape))%Q /\
  state (fst (Enemy_begin 1%nat high start)) = GAME_OVER /\
  space (fst (Enemy_begin 1%nat high start)) = [0; 1; 2; 3; 4; 5]%nat.
Proof. vm_compute. repeat split; intro; discriminate. Qed.

(** C1, amended: for a contact between a shape tagged [PLAYER] and a
    shape tagged [ENEMY], in either order, a normal relative to the
    player with y >= 0.25 makes the callback send "hit_player", whose
    handler sets the state to [GAME_OVER], and remove nothing; with y
    below 0.25 and the player's shape first, the callback removes the
    other shape, the enemy's, from the space and sends no message. *)
Theorem C1_stomp_removes_else_hit_player (self : ref) (arb : Arbiter)
    (g : Game) :
  let shape_a := fst (shapes arb) in
  let shape_b := snd (shapes arb) in
  (collision_type shape_a = PLAYER /\ collision_type shape_b = ENEMY) \/
  (collision_type shape_a = ENEMY /\ collision_type shape_b = PLAYER) ->
  forall player : Shape,
    In player [shape_a; shape_b] ->
    collision_type player = PLAYER ->
    let n := normal_from arb player in
    ((1 # 4 <= vy n)%Q ->
       Enemy_begin self arb g =
         (Game_message "hit_player" self;; ret true) g /\
       fst (Enemy_begin self arb g) = set_state GAME_OVER g) /\
    ((vy n < 1 # 4)%Q ->
       collision_type shape_a = PLAYER ->
       Enemy_begin self arb g = (space_remove (s_ref shape_b);; ret true) g /\
       state (fst (Enemy_begin self arb g)) = state g).
Proof.
  intros shape_a shape_b Hpair player Hin Hplayer n.
  assert (Hbound :
    player = if ColType_eqb (collision_type shape_a) PLAYER then shape_a
             else shape_b).
  { destruct Hpair as [[Ha Hb] | [Ha Hb]]; rewrite Ha; cbn;
      destruct Hin as [<- | [<- | []]]; congruence. }
  subst n shape_a shape_b. unfold Enemy_begin.
  destruct (shapes arb) as [shape_a shape_b]; cbn [fst snd] in *.
  split.
  - intros Hn. apply Qltb_ge in Hn.
    destruct (ColType_eqb (collision_type shape_a) PLAYER);
      subst player; rewrite Hn; split; reflexivity.
  - intros Hn Ha. apply Qltb_lt in Hn. rewrite Ha in *. cbn in Hbound |- *.
    subst player. rewrite Hn. split; reflexivity.
Qed.

Lemma C1_stomp_removes_else_hit_player_witness :
  state (fst (Enemy_begin 1%nat
                (contact (enemy_shape 1%nat) player_shape (mkVec2d 0 1))
                start)) = GAME_OVER.
Proof.
  pose proof (C1_stomp_removes_else_hit_player 1%nat
                (contact (enemy_shape 1%nat) player_shape (mkVec2d 0 1))
                start (or_intror (conj eq_refl eq_refl))
                player_shape (or_intror (or_introl eq_refl)) eq_refl)
    as [H _].
  destruct H as [_ H]; [vm_compute; discriminate |].
  rewrite H. reflexivity.
Defined.

(** C4: the code at the failing input.  The engine delivers the enemy's
    shape first and the player is on top of the enemy (normal pointing
    down from the player): the shape taken as player is the player's, and
    the shape removed from the space is the player's too, enemy 1 staying
    in. *)
Theorem C4_enemy_first_removes_the_player :
  let arb := contact (enemy_shape 1%nat) player_shape (mkVec2d 0 (-1)) in
  collision_type (fst (shapes arb)) = ENEMY /\
  collision_type (snd (shapes arb)) = PLAYER /\
  space start = [0; 1; 2; 3; 4; 5]%nat /\
  Enemy_begin 1%nat arb start = (space_remove player_ref;; ret true) start /\
  space (fst (Enemy_begin 1%nat arb start)) = [1; 2; 3; 4; 5]%nat.
Proof. vm_compute. repeat split. Qed.

(** * Game: firing *)

(** While the list holds at most [MAX_BULLETS] bullets, [shoot_bullet]
    appends one. *)
Lemma shoot_bullet_appends (env : Frame) (g : Game) :
  (length (bullets g) <= MAX_BULLETS)%nat ->
  snd (shoot_bullet env g) = Ok tt /\
  bullets (fst (shoot_bullet env g)) = bullets g ++ [next_ref g].
Proof.
  intros Hlen. unfold shoot_bullet, bind, gets.
  destruct (MAX_BULLETS <? length (bullets g))%nat eqn:E.
  - apply Nat.ltb_lt in E. lia.
  - split; reflexivity.
Qed.

Lemma shoot_bullet_times (env : Frame) (n : nat) :
  forall g,
    (n + length (bullets g) <= S MAX_BULLETS)%nat ->
    snd (times n (shoot_bullet env) g) = Ok tt /\
    length (bullets (fst (times n (shoot_bullet env) g))) =
      (n + length (bullets g))%nat.
Proof.
  induction n as [| n IH]; intros g Hlen; cbn.
  - split; reflexivity.
  - destruct (shoot_bullet_appends env g) as [Ho Hb]; [lia |].
    unfold bind. destruct (shoot_bullet env g) as [g1 o]; cbn in *.
    subst o. destruct (IH g1) as [Ho' Hl'].
    + rewrite Hb, length_app; cbn. lia.
    + split; [exact Ho' |]. rewrite Hl', Hb, length_app; cbn. lia.
Qed.

(** C3: the code at the failing input.  From an empty bullet list, eleven
    calls of [shoot_bullet] in a row all succeed and leave eleven bullets
    in the list, one more than [MAX_BULLETS]. *)
Theorem C3_eleven_shots_leave_eleven_bullets (env : Frame) (g : Game) :
  MAX_BULLETS = 10%nat /\
  snd (times 11 (shoot_bullet env) (set_bullets [] g)) = Ok tt /\
  length (bullets (fst (times 11 (shoot_bullet env) (set_bullets [] g)))) =
    11%nat.
Proof.
  split; [reflexivity |].
  destruct (shoot_bullet_times env 11 (set_bullets [] g)) as [Ho Hl].
  - cbn. unfold MAX_BULLETS. lia.
  - split; [exact Ho | exact Hl].
Qed.

(** * Game: removing a bullet twice *)

(** C8: the code at the failing inputs.  A bullet fired in the first frame
    lies, in the second, within the radii of enemies 1 and 2: the second
    [del_bullet] of that pass raises [ValueError].  And a bullet whose
    life time runs out in the frame in which it lies inside enemy 1 is
    removed by [Bullet.update] and once more by the hit test, which
    raises. *)
Theorem C8_second_removal_raises :
  snd (run [click_frame; two_enemies_frame] start) = Raise ValueError /\
  snd (run expiry_hit_frames start) = Raise ValueError.
Proof. split; vm_compute; reflexivity. Qed.

(** * Game: the state *)

Lemma Game_update_not_running env : preserves not_running (Game_update env).
Proof.
  pres; unfold not_running in *; cbn in *; try assumption; try discriminate.
  all: case_bool_decide; cbn; assumption.
Qed.

Lemma run_not_running frames : preserves not_running (run frames).
Proof.
  induction frames as [| env rest IH]; cbn.
  - apply preserves_ret.
  - apply preserves_bind; [apply Game_update_not_running | intros _; exact IH].
Qed.

Lemma Game_message_not_running msg sender :
  preserves not_running (Game_message msg sender).
Proof. pres; unfold not_running in *; cbn in *; discriminate. Qed.

(** C2, as the claim states it, fails: in a run of the game from its
    start, the state is [GAME_OVER] after a side hit while enemy 5 has one
    life left and a bullet is in flight, and the next update, in which the
    bullet kills enemy 5, sets [HAS_WON]. *)
Lemma C2_game_over_then_has_won :
  let over := run (nineteen_hits ++ [side_hit_frame]) start in
  let won := Game_update last_hit_frame (fst over) in
  snd over = Ok tt /\ state (fst over) = GAME_OVER /\
  snd won = Ok tt /\ state (fst won) = HAS_WON.
Proof. vm_compute. repeat split. Qed.

(** * Game: the win condition *)

Ltac through_bind tac := apply preserves_bind; [solve [tac] | intro].

Lemma Game_update_won_means_no_enemies env :
  preserves won_means_no_enemies (Game_update env).
Proof.
  assert (Hleaves : forall e, preserves won_means_no_enemies
                                (remove_from enemies set_enemies e)).
  { intros e. apply preserves_remove_from. intros g l H E Hs.
    cbn in *. rewrite (H Hs) in E. discriminate. }
  unfold Game_update.
  do 9 through_bind
    ltac:(pres; unfold won_means_no_enemies in *; cbn in *;
          try assumption; try discriminate;
          try (case_bool_decide; cbn; assumption)).
  intros g H. unfold bind, gets.
  destruct (length (enemies g) =? 0)%nat eqn:E; cbn; [| exact H].
  intros _. apply Nat.eqb_eq in E. destruct (enemies g); [reflexivity |].
  discriminate.
Qed.

Lemma run_won_means_no_enemies frames :
  preserves won_means_no_enemies (run frames).
Proof.
  induction frames as [| env rest IH]; cbn.
  - apply preserves_ret.
  - apply preserves_bind;
      [apply Game_update_won_means_no_enemies | intros _; exact IH].
Qed.

Lemma Game_init_state pm rnd : state (Game_init pm rnd) = RUNNING.
Proof. vm_compute. reflexivity. Qed.

Lemma reached_won_means_no_enemies pm rnd frames :
  won_means_no_enemies (reached pm rnd frames).
Proof.
  unfold reached. apply (run_won_means_no_enemies frames (Game_init pm rnd)).
  unfold won_means_no_enemies. rewrite Game_init_state.
  intros H. discriminate H.
Qed.

Lemma ends_with_bind {A B} (m : M A) (k : A -> M B) Q :
  (forall a, ends_with (k a) Q) -> ends_with (bind m k) Q.
Proof.
  intros Hk g g' b E. apply bind_Ok_inv in E as (a & g1 & _ & E).
  eapply Hk, E.
Qed.

Lemma Game_update_ends_won_if_no_enemies env :
  ends_with (Game_update env) (fun g => enemies g = [] -> state g = HAS_WON).
Proof.
  unfold Game_update. do 9 (apply ends_with_bind; intro).
  intros g g' [] E Hnil. unfold bind, gets in E.
  destruct (length (enemies g) =? 0)%nat eqn:El; cbn in E;
    injection E as <-; [reflexivity |].
  rewrite Hnil in El. discriminate.
Qed.

(** C9: in every run of the game, an update pass that ends leaves the
    state [HAS_WON] if and only if the enemy list is empty at that
    point. *)
Theorem C9_has_won_iff_no_enemies (player_mass : Q) (rnd : nat -> Q)
    (frames : list Frame) (env : Frame) :
  snd (Game_update env (reached player_mass rnd frames)) = Ok tt ->
  state (fst (Game_update env (reached player_mass rnd frames))) = HAS_WON
  <-> enemies (fst (Game_update env (reached player_mass rnd frames))) = [].
Proof.
  intros Hok. split.
  - apply Game_update_won_means_no_enemies, reached_won_means_no_enemies.
  - destruct (Game_update env (reached player_mass rnd frames))
      as [g' o] eqn:E; cbn in *. subst o.
    exact (Game_update_ends_won_if_no_enemies env _ _ _ E).
Qed.

Lemma C9_has_won_iff_no_enemies_witness :
  state (fst (Game_update last_hit_frame
                (reached 1 (fun _ => 4%Q)
                   (nineteen_hits ++ [side_hit_frame])))) = HAS_WON
  <-> enemies (fst (Game_update last_hit_frame
                      (reached 1 (fun _ => 4%Q)
                         (nineteen_hits ++ [side_hit_frame])))) = [].
Proof.
  apply (C9_has_won_iff_no_enemies 1 (fun _ => 4%Q)
           (nineteen_hits ++ [side_hit_frame]) last_hit_frame).
  vm_compute. reflexivity.
Defined.

(** * Game: the final states *)

Lemma Game_update_no_enemies env :
  preserves (fun g => enemies g = []) (Game_update env).
Proof.
  assert (Hleaves : forall e, preserves (fun g => enemies g = [])
                                (remove_from enemies set_enemies e)).
  { intros e. apply preserves_remove_from. intros g l H E.
    cbn in *. rewrite H in E. discriminate. }
  unfold Game_update.
  do 9 through_bind
    ltac:(pres; cbn in *; try assumption;
          try (case_bool_decide; cbn; assumption)).
  intros g H. unfold bind, gets.
  destruct (length (enemies g) =? 0)%nat; cbn; exact H.
Qed.

Lemma run_stays_won frames :
  forall g, state g = HAS_WON -> enemies g = [] ->
            snd (run frames g) = Ok tt ->
            state (fst (run frames g)) = HAS_WON.
Proof.
  induction frames as [| env rest IH]; intros g Hs Hnil Hok; cbn in *.
  - exact Hs.
  - destruct (bind (Game_update env) (fun _ => run rest) g)
      as [g' o] eqn:E; cbn in *. subst o.
    apply bind_Ok_inv in E as ([] & g1 & E1 & E2).
    assert (Hnil1 : enemies g1 = []).
    { pose proof (Game_update_no_enemies env g Hnil) as H.
      rewrite E1 in H. exact H. }
    pose proof (Game_update_ends_won_if_no_enemies env _ _ _ E1 Hnil1) as Hs1.
    specialize (IH g1 Hs1 Hnil1). rewrite E2 in IH. apply IH. reflexivity.
Qed.

(** C2, amended: once the state is [GAME_OVER] or [HAS_WON], no sequence
    of updates and no message handling sets it back to [RUNNING]; and in
    every run of the game, [HAS_WON] is final: it is the state after every
    later sequence of updates that ends.  Only [GAME_OVER] can be left, and
    only for [HAS_WON]: an update that ends leaves [GAME_OVER] as long as
    an enemy is listed, and [HAS_WON] once the enemy list is empty. *)
Theorem C2_only_game_over_turns_into_has_won (g : Game) :
  state g <> RUNNING ->
  (forall frames, state (fst (run frames g)) <> RUNNING) /\
  (forall msg sender, state (fst (Game_message msg sender g)) <> RUNNING) /\
  (forall player_mass rnd played,
     g = reached player_mass rnd played ->
     (state g = HAS_WON ->
      forall frames, snd (run frames g) = Ok tt ->
                     state (fst (run frames g)) = HAS_WON) /\
     (forall env, snd (Game_update env g) = Ok tt ->
        state (fst (Game_update env g)) =
          match enemies (fst (Game_update env g)) with
          | [] => HAS_WON
          | _ :: _ => GAME_OVER
          end)).
Proof.
  intros H. split; [| split].
  - intros frames. apply (run_not_running frames g H).
  - intros msg sender. apply (Game_message_not_running msg sender g H).
  - intros pm rnd played Hg.
    assert (Hw : won_means_no_enemies g)
      by (rewrite Hg; apply reached_won_means_no_enemies).
    split.
    + intros Hs frames. apply run_stays_won; [exact Hs | exact (Hw Hs)].
    + intros env Hok.
      pose proof (Game_update_not_running env g H) as Hnr.
      pose proof (Game_update_won_means_no_enemies env g Hw) as Hw'.
      unfold not_running in Hnr. unfold won_means_no_enemies in Hw'.
      destruct (Game_update env g) as [g' o] eqn:E; cbn in *. subst o.
      destruct (enemies g') as [| e l] eqn:El.
      * exact (Game_update_ends_won_if_no_enemies env _ _ _ E El).
      * destruct (state g') eqn:Es;
          [contradiction | reflexivity | discriminate (Hw' eq_refl)].
Qed.

Lemma C2_only_game_over_turns_into_has_won_witness :
  state (fst (run [side_hit_frame; click_frame]
                (reached 1 (fun _ => 4%Q)
                   (nineteen_hits ++ [side_hit_frame; last_hit_frame]))))
    = HAS_WON /\
  state (fst (Game_update click_frame
                (reached 1 (fun _ => 4%Q)
                   (nineteen_hits ++ [side_hit_frame]))))
    = GAME_OVER.
Proof.
  split.
  - pose proof (C2_only_game_over_turns_into_has_won
                  (reached 1 (fun _ => 4%Q)
                     (nineteen_hits ++ [side_hit_frame; last_hit_frame])))
      as T.
    assert (H : state (reached 1 (fun _ => 4%Q)
                         (nineteen_hits ++ [side_hit_frame; last_hit_frame]))
                <> RUNNING).
    { vm_compute. intros H. inversion H. }
    destruct (T H) as (_ & _ & Hrun).
    destruct (Hrun 1%Q (fun _ => 4%Q)
                (nineteen_hits ++ [side_hit_frame; last_hit_frame]) eq_refl)
      as [Hwon _].
    apply Hwon; vm_compute; reflexivity.
  - pose proof (C2_only_game_over_turns_into_has_won
                  (reached 1 (fun _ => 4%Q)
                     (nineteen_hits ++ [side_hit_frame])))
      as T.
    assert (H : state (reached 1 (fun _ => 4%Q)
                         (nineteen_hits ++ [side_hit_frame]))
                <> RUNNING).
    { vm_compute. intros H. inversion H. }
    destruct (T H) as (_ & _ & Hrun).
    destruct (Hrun 1%Q (fun _ => 4%Q)
                (nineteen_hits ++ [side_hit_frame]) eq_refl)
      as [_ Hover].
    assert (Hok : snd (Game_update click_frame
                         (reached 1 (fun _ => 4%Q)
                            (nineteen_hits ++ [side_hit_frame]))) = Ok tt)
      by (vm_compute; reflexivity).
    assert (He : enemies (fst (Game_update click_frame
                                 (reached 1 (fun _ => 4%Q)
                                    (nineteen_hits ++ [side_hit_frame]))))
                 = [5%nat])
      by (vm_compute; reflexivity).
    rewrite (Hover click_frame Hok), He. reflexivity.
Defined.

(** * Removal from a list *)

Lemma list_remove_length x l l' :
  list_remove x l = Some l' -> length l = S (length l').
Proof.
  revert l'. induction l as [| y l IH]; intros l' E; cbn in E; [discriminate |].
  destruct (Nat.eqb x y).
  - injection E as <-. reflexivity.
  - destruct (list_remove x l) as [r |]; [| discriminate].
    injection E as <-. cbn. rewrite (IH r eq_refl). reflexivity.
Qed.

(** * Loops end by reaching the end of their list *)

Lemma fueled_ret {A} (a : A) : fueled (ret a).
Proof. intros g; discriminate. Qed.

Lemma fueled_gets {A} (f : Game -> A) : fueled (gets f).
Proof. intros g; discriminate. Qed.

Lemma fueled_modify f : fueled (modify f).
Proof. intros g; discriminate. Qed.

Lemma fueled_alloc : fueled alloc.
Proof. intros g; discriminate. Qed.

Lemma fueled_random_draw : fueled random_draw.
Proof. intros g; discriminate. Qed.

Lemma fueled_remove_from get set x : fueled (remove_from get set x).
Proof.
  intros g. unfold remove_from. destruct (list_remove x (get g)); discriminate.
Qed.

Lemma fueled_bind {A B} (m : M A) (k : A -> M B) :
  fueled m -> (forall a, fueled (k a)) -> fueled (bind m k).
Proof.
  intros Hm Hk g. unfold bind. specialize (Hm g).
  destruct (m g) as [g' [a | e |]]; cbn in *;
    [apply Hk | discriminate | exfalso; apply Hm; reflexivity].
Qed.

Lemma fueled_for_each {X} (xs : list X) body :
  (forall x, fueled (body x)) -> fueled (for_each xs body).
Proof.
  intros Hb. induction xs as [| x xs IH]; cbn.
  - apply fueled_ret.
  - apply fueled_bind; auto.
Qed.

(** A loop over a list that its body never lengthens ends within as many
    steps as the list has elements left. *)
Lemma for_in_enough_fuel lst body :
  (forall x n, preserves (fun g => (length (lst g) <= n)%nat) (body x)) ->
  (forall x, fueled (body x)) ->
  forall fuel i g,
    (length (lst g) <= fuel + i)%nat ->
    snd (for_in fuel lst body i g) <> OutOfFuel.
Proof.
  intros Hshrink Hb fuel.
  induction fuel as [| fuel IH]; intros i g Hlen; cbn.
  - destruct (lst g !! i) eqn:E; [| discriminate].
    apply lookup_lt_Some in E. lia.
  - destruct (lst g !! i) as [x |] eqn:E; [| discriminate].
    specialize (Hshrink x _ g (Nat.le_refl _)). specialize (Hb x g).
    destruct (body x g) as [g' [a | e |]]; cbn in *;
      [| discriminate | exfalso; apply Hb; reflexivity].
    apply IH. lia.
Qed.

Lemma fueled_for_in_length lst body :
  (forall x n, preserves (fun g => (length (lst g) <= n)%nat) (body x)) ->
  (forall x, fueled (body x)) ->
  fueled (bind (gets (fun g => length (lst g)))
            (fun n => for_in n lst body 0)).
Proof.
  intros Hshrink Hb g. unfold bind, gets.
  apply for_in_enough_fuel; [exact Hshrink | exact Hb | lia].
Qed.

Lemma fueled_for_in_length_then {B} lst body (k : unit -> M B) :
  (forall x n, preserves (fun g => (length (lst g) <= n)%nat) (body x)) ->
  (forall x, fueled (body x)) ->
  (forall a, fueled (k a)) ->
  fueled (bind (gets (fun g => length (lst g)))
            (fun n => bind (for_in n lst body 0) k)).
Proof.
  intros Hshrink Hb Hk g. unfold bind, gets.
  pose proof (for_in_enough_fuel lst body Hshrink Hb (length (lst g)) 0 g)
    as H.
  destruct (for_in (length (lst g)) lst body 0 g) as [g' [a | e |]];
    cbn in *.
  - apply Hk.
  - discriminate.
  - exfalso. apply H; [lia | reflexivity].
Qed.

Ltac shrink_leaf :=
  cbn in *; try assumption;
  try match goal with
      | H : list_remove _ _ = Some _ |- _ =>
          apply list_remove_length in H; lia
      end.

Ltac fueled_step :=
  first
    [ solve [eauto 2]
    | apply fueled_for_in_length; [intros ? ?; pres; shrink_leaf | intro]
    | apply fueled_for_in_length_then;
        [intros ? ?; pres; shrink_leaf | intro | intro]
    | lazymatch goal with
      | |- fueled (bind _ _) => apply fueled_bind; [| intro]
      | |- fueled (ret _) => apply fueled_ret
      | |- fueled (gets _) => apply fueled_gets
      | |- fueled (modify _) => apply fueled_modify
      | |- fueled alloc => apply fueled_alloc
      | |- fueled random_draw => apply fueled_random_draw
      | |- fueled (remove_from _ _ _) => apply fueled_remove_from
      | |- fueled (for_each _ _) => apply fueled_for_each; intro
      | |- fueled (if ?c then _ else _) => destruct c
      | |- fueled (match ?c with _ => _ end) => destruct c
      | |- fueled ?m => let h := head_of m in progress unfold h
      end ].

Lemma Game_update_never_out_of_fuel env : fueled (Game_update env).
Proof. repeat fueled_step. Qed.

Lemma run_never_out_of_fuel frames : fueled (run frames).
Proof.
  induction frames as [| env rest IH]; cbn.
  - apply fueled_ret.
  - apply fueled_bind; [apply Game_update_never_out_of_fuel | intros _; exact IH].
Qed.

(** * Bullet *)

Lemma Bullet_update_unfold (g : Game) (self : ref) (b : Bullet) :
  bullet_obj g !! self = Some b ->
  Bullet_update self g =
    (if life_time b - 1 <? 0 then del_bullet self else ret tt)
      (put_bullet self (Bullet_moved b) g).
Proof.
  intros Hb. unfold Bullet_update, bind, get_bullet, gets, upd_bullet, modify.
  cbn. rewrite alter_alter_eq.
  rewrite (alter_alt_Some _ _ _ _ Hb). cbn.
  rewrite (lookup_total_correct _ _ _ Hb).
  rewrite lookup_total_insert_eq. cbn. reflexivity.
Qed.

Lemma Bullet_update_times (self : ref) (n : nat) :
  forall g b,
    bullet_obj g !! self = Some b ->
    Z.of_nat n <= life_time b ->
    exists gn bn,
      times n (Bullet_update self) g = (gn, Ok tt) /\
      bullets gn = bullets g /\
      bullet_obj gn !! self = Some bn /\
      life_time bn = life_time b - Z.of_nat n.
Proof.
  induction n as [| n IH]; intros g b Hb Hn.
  - exists g, b. cbn. repeat split; [exact Hb | lia].
  - cbn [times]. unfold bind. rewrite (Bullet_update_unfold g self b Hb).
    destruct (life_time b - 1 <? 0) eqn:E; [apply Z.ltb_lt in E; lia |].
    cbn [ret].
    destruct (IH (put_bullet self (Bullet_moved b) g) (Bullet_moved b))
      as (gn & bn & Ht & Hl & Hbn & Hlt).
    + cbn. apply lookup_insert_eq.
    + cbn. lia.
    + exists gn, bn. rewrite Ht. repeat split; [exact Hl | exact Hbn |].
      rewrite Hlt. cbn. lia.
Qed.

(** C7: a call of [Bullet.update] lowers [life_time] by exactly 1 and is
    a call of [del_bullet] on the moved bullet exactly when the new
    [life_time] is below 0.  So a bullet with [life_time = L >= 0] that
    nothing else removes goes through [L] updates that leave the bullet
    list alone, and the update after them, the first to bring [life_time]
    below 0, calls [del_bullet]. *)
Theorem C7_life_time_counts_down_to_removal (g : Game) (self : ref)
    (b : Bullet) :
  bullet_obj g !! self = Some b ->
  life_time (bullet_obj (fst (Bullet_update self g)) !!! self) =
    life_time b - 1 /\
  Bullet_update self g =
    (if life_time b - 1 <? 0 then del_bullet self else ret tt)
      (put_bullet self (Bullet_moved b) g) /\
  (0 <= life_time b ->
   (forall n, (n <= Z.to_nat (life_time b))%nat ->
      snd (times n (Bullet_update self) g) = Ok tt /\
      bullets (fst (times n (Bullet_update self) g)) = bullets g /\
      life_time (bullet_obj (fst (times n (Bullet_update self) g)) !!! self) =
        life_time b - Z.of_nat n) /\
   exists gL bL,
     times (Z.to_nat (life_time b)) (Bullet_update self) g = (gL, Ok tt) /\
     life_time bL = -1 /\
     Bullet_update self gL = del_bullet self (put_bullet self bL gL)).
Proof.
  intros Hb. split; [| split].
  - rewrite (Bullet_update_unfold g self b Hb).
    assert (Hput : life_time (bullet_obj (put_bullet self (Bullet_moved b) g)
                               !!! self) = life_time b - 1).
    { cbn. rewrite lookup_total_insert_eq. reflexivity. }
    destruct (life_time b - 1 <? 0); [| exact Hput].
    unfold del_bullet, remove_from.
    destruct (list_remove self _); exact Hput.
  - apply Bullet_update_unfold, Hb.
  - intros Hpos. split.
    + intros n Hn.
      destruct (Bullet_update_times self n g b Hb)
        as (gn & bn & Ht & Hl & Hbn & Hlt); [lia |].
      rewrite Ht. cbn. rewrite (lookup_total_correct _ _ _ Hbn).
      repeat split; assumption.
    + destruct (Bullet_update_times self (Z.to_nat (life_time b)) g b Hb)
        as (gL & bL & Ht & Hl & HbL & Hlt); [lia |].
      exists gL, (Bullet_moved bL). repeat split; [exact Ht | cbn; lia |].
      rewrite (Bullet_update_unfold gL self bL HbL).
      replace (life_time bL - 1 <? 0) with true; [reflexivity |].
      symmetry. apply Z.ltb_lt. lia.
Qed.

Lemma C7_life_time_counts_down_to_removal_witness :
  life_time (bullet_obj (fst (Bullet_update 6%nat
     (fst (Game_update click_frame start)))) !!! 6%nat) = 149.
Proof.
  refine (proj1 (C7_life_time_counts_down_to_removal
     (fst (Game_update click_frame start)) 6%nat
     (mkBullet (mkVec2d 50 50) (mkVec2d 1 0) 150) _)).
  vm_compute. reflexivity.
Defined.

(** * DeathParticles *)

Lemma emmit_emitter_ok self base position velocity :
  preserves (emitter_ok self base) (emmit self position velocity).
Proof.
  intros g (d & Hd & Hgen & Hlen & Hnext).
  cbv beta iota zeta delta [emmit bind keep_generating get_emitter gets ret].
  rewrite (lookup_total_correct _ _ _ Hd).
  destruct (generated d <? MAX_GENERATED) eqn:E; cbn [negb].
  - apply Z.ltb_lt in E. cbn.
    exists (mkDeathParticles (dp_particles d ++ [next_ref g]) (duration d)
              (generated d + 1) (color_scale d)).
    rewrite alter_alter_eq, (alter_alt_Some _ _ _ _ Hd). cbn.
    rewrite lookup_insert_eq, length_app. cbn. repeat split; lia.
  - cbn. exists d. repeat split; assumption || lia.
Qed.

Lemma generate_particles_emitter_ok self base position batch_size :
  preserves (emitter_ok self base)
    (generate_particles self position batch_size).
Proof.
  pose proof (emmit_emitter_ok self base) as Hemmit.
  pres; unfold emitter_ok in *; cbn in *; assumption.
Qed.

Lemma DeathParticles_update_emitter_ok self base :
  preserves (emitter_ok self base) (DeathParticles_update self).
Proof.
  pres; unfold emitter_ok in *; cbn in *; try assumption.
  match goal with H : ex _ |- _ => destruct H as (d & Hd & Hgen & Hlen & Hnext) end.
  rewrite (lookup_total_correct _ _ _ Hd) in *.
  match goal with H : list_remove _ _ = Some _ |- _ =>
    apply list_remove_length in H end.
  eexists. rewrite (alter_alt_Some _ _ _ _ Hd), lookup_insert_eq.
  split; [reflexivity |]. cbn. repeat split; lia.
Qed.

Lemma call_emitter_ok self base c : preserves (emitter_ok self base) (call self c).
Proof.
  destruct c; cbn.
  - apply generate_particles_emitter_ok.
  - apply emmit_emitter_ok.
  - apply DeathParticles_update_emitter_ok.
Qed.

Lemma calls_emitter_ok self base cs :
  forall g, emitter_ok self base g -> emitter_ok self base (calls self cs g).
Proof.
  induction cs as [| c cs IH]; intros g H; cbn; [exact H |].
  apply IH, call_emitter_ok, H.
Qed.

Lemma DeathParticles_init_emitter_ok g :
  emitter_ok (next_ref g) (S (next_ref g)) (fst (DeathParticles_init g)).
Proof.
  cbv beta iota zeta delta [DeathParticles_init bind alloc modify ret fst].
  eexists. cbn. rewrite lookup_insert_eq. split; [reflexivity |].
  cbn. unfold MAX_GENERATED. repeat split; lia.
Qed.

(** C6: whatever sequence of [generate_particles], [emmit] and [update]
    calls, with whatever batch sizes, follows the construction of a
    [DeathParticles], its [generated] counter stays between 0 and
    [MAX_GENERATED] = 100, its particle list never holds more than
    [generated] particles, and the bodies created since its construction
    number exactly [generated]. *)
Theorem C6_at_most_max_generated (g : Game) (cs : list Call) :
  let self := next_ref g in
  let g' := calls self cs (fst (DeathParticles_init g)) in
  let d := emitter_obj g' !!! self in
  MAX_GENERATED = 100 /\
  0 <= generated d <= MAX_GENERATED /\
  Z.of_nat (length (dp_particles d)) <= generated d /\
  Z.of_nat (next_ref g') = Z.of_nat (S (next_ref g)) + generated d.
Proof.
  intros self g' d. split; [reflexivity |].
  destruct (calls_emitter_ok self (S (next_ref g)) cs
              (fst (DeathParticles_init g))
              (DeathParticles_init_emitter_ok g))
    as (d' & Hd & Hgen & Hlen & Hnext).
  subst d g'. rewrite (lookup_total_correct _ _ _ Hd).
  repeat split; assumption || lia.
Qed.

(** * Enemy lives *)

Lemma list_remove_elem_of x l :
  x ∈ l -> exists l', list_remove x l = Some l'.
Proof.
  induction l as [| y l IH]; intros Hin; [inversion Hin |]. cbn.
  destruct (Nat.eqb x y) eqn:E; [eauto |].
  apply Nat.eqb_neq in E. apply elem_of_cons in Hin as [-> | Hin]; [easy |].
  destruct (IH Hin) as [l' ->]. eauto.
Qed.

Lemma list_remove_NoDup x l l' :
  NoDup l -> list_remove x l = Some l' ->
  NoDup l' /\ forall y, y ∈ l' <-> y ∈ l /\ y <> x.
Proof.
  revert l'. induction l as [| z l IH]; intros l' Hnd E; cbn in E;
    [discriminate |].
  apply NoDup_cons in Hnd as [Hz Hnd].
  destruct (Nat.eqb x z) eqn:Exz.
  - apply Nat.eqb_eq in Exz. subst z. injection E as <-.
    split; [exact Hnd |]. intros y. rewrite elem_of_cons.
    split; [intros Hy; split; [auto | intros ->; auto] |].
    intros [[-> | Hy] Hne]; [easy | exact Hy].
  - apply Nat.eqb_neq in Exz.
    destruct (list_remove x l) as [r |]; [| discriminate].
    injection E as <-. destruct (IH r Hnd eq_refl) as [Hr Hiff].
    split.
    + apply NoDup_cons. split; [| exact Hr].
      intros Hzr. apply Hiff in Hzr as [Hzl _]. auto.
    + intros y. rewrite !elem_of_cons, Hiff.
      split; [intros [-> | [Hy Hne]]; auto | intros [[-> | Hy] Hne]; auto].
Qed.

(** The enemy list and heap after a hit on [e]: one life less, and out of
    the list when that was the last. *)
Lemma enemies_wf_hit (g g' : Game) (e : ref) (eo : Enemy) :
  enemies_wf g ->
  e ∈ enemies g ->
  enemy_obj g !! e = Some eo ->
  enemy_obj g' =
    <[e := mkEnemy (e_position eo) (e_radius eo) (lives eo - 1)]>
      (enemy_obj g) ->
  (if lives eo - 1 <=? 0 then list_remove e (enemies g) = Some (enemies g')
   else enemies g' = enemies g) ->
  enemies_wf g'.
Proof.
  intros (Hnd & Hdom & Hall) Hin Heo Hobj Hlist.
  destruct (Hall e eo Heo) as [Hrange Hiff].
  assert (Hpos : 0 < lives eo) by (apply Hiff, Hin).
  assert (Hg' : NoDup (enemies g') /\
                forall y, y ∈ enemies g' <->
                          y ∈ enemies g /\ (y = e -> 0 < lives eo - 1)).
  { destruct (lives eo - 1 <=? 0) eqn:E.
    - apply Z.leb_le in E.
      destruct (list_remove_NoDup _ _ _ Hnd Hlist) as [Hnd' Hiff'].
      split; [exact Hnd' |]. intros y. rewrite Hiff'.
      split; intros [Hy Hne]; (split; [exact Hy |]); [intros ->; easy |].
      intros ->. specialize (Hne eq_refl). lia.
    - apply Z.leb_gt in E. rewrite Hlist. split; [exact Hnd |].
      intros y. split; [intros Hy; split; [exact Hy | intros _; exact E] |].
      intros [Hy _]; exact Hy. }
  destruct Hg' as [Hnd' Hiff'].
  split; [exact Hnd' |]. split.
  - intros r Hr. apply Hiff' in Hr as [Hr _]. rewrite Hobj.
    apply lookup_insert_is_Some'. right. apply Hdom, Hr.
  - intros r x. rewrite Hobj. intros Hx.
    apply lookup_insert_Some in Hx as [[<- <-] | [Hne Hx]].
    + split; cbn; [lia |]. rewrite Hiff'. split; [intros [_ H]; auto |].
      intros H; split; [exact Hin | intros _; exact H].
    + destruct (Hall r x Hx) as [Hrange' Hiffx].
      split; [exact Hrange' |]. rewrite Hiff', <- Hiffx.
      split; [intros [H _]; exact H | intros H; split; [exact H |]].
      intros ->. easy.
Qed.

Lemma enemies_wf_same (g g' : Game) :
  enemies_wf g -> same_enemies (enemies g) (enemy_obj g) g' -> enemies_wf g'.
Proof.
  intros H [Hl Hh]. unfold enemies_wf, lives_ok in *. rewrite Hl, Hh. exact H.
Qed.

Ltac same_leaf := unfold same_enemies in *; cbn in *; assumption.

Lemma del_enemy_same_enemies env e g l :
  list_remove e (enemies g) = Some l ->
  same_enemies l (enemy_obj g) (fst (del_enemy env e g)).
Proof.
  intros E. unfold del_enemy. unfold bind at 1. unfold remove_from. rewrite E.
  match goal with
  | |- same_enemies ?l ?h (fst (?m ?g0)) =>
      enough (Hp : preserves (same_enemies l h) m)
        by (apply Hp; split; reflexivity)
  end.
  pres; same_leaf.
Qed.

Lemma verify_bullet_hit_enemies_wf env b :
  preserves enemies_wf (verify_bullet_hit_enemies env b).
Proof.
  unfold verify_bullet_hit_enemies.
  apply preserves_bind; [apply preserves_gets | intros bo].
  apply preserves_bind; [apply preserves_gets | intros n].
  apply for_in_invariant. intros e g Hwf Hin.
  destruct Hwf as (Hnd & Hdom & Hall).
  destruct (Hdom e Hin) as [eo Heo].
  assert (Hwf : enemies_wf g) by (split; [| split]; assumption).
  cbv beta iota zeta delta [bind get_enemy gets].
  rewrite (lookup_total_correct _ _ _ Heo).
  destruct (Qle_bool _ _); [| exact Hwf].
  unfold del_bullet, remove_from.
  destruct (list_remove b (bullets g)) as [lb |]; [| exact Hwf].
  cbv beta iota zeta delta [upd_enemy modify].
  cbn [set_bullets set_enemy_obj enemy_obj enemies bullets].
  rewrite (alter_alt_Some _ _ _ _ Heo), lookup_total_insert_eq.
  cbn [lives].
  destruct (lives eo - 1 <=? 0) eqn:E.
  - destruct (list_remove_elem_of e (enemies g) Hin) as [l' Hl'].
    match goal with
    | |- enemies_wf (fst (del_enemy env e ?g2)) =>
        destruct (del_enemy_same_enemies env e g2 l' Hl') as [Hl Hh]
    end.
    eapply (enemies_wf_hit g _ e eo Hwf Hin Heo).
    + rewrite Hh. reflexivity.
    + rewrite E, Hl. exact Hl'.
  - eapply (enemies_wf_hit g _ e eo Hwf Hin Heo).
    + reflexivity.
    + rewrite E. reflexivity.
Qed.

Lemma space_step_enemies_wf env : preserves enemies_wf (space_step env).
Proof.
  unfold space_step.
  apply preserves_bind; [| intros _].
  - apply preserves_modify. intros g (Hnd & Hdom & Hall).
    split; [exact Hnd |]. split; cbn.
    + intros r Hr. destruct (Hdom r Hr) as [e He].
      rewrite map_lookup_imap, He. cbn. eauto.
    + intros r e'. rewrite map_lookup_imap.
      destruct (enemy_obj g !! r) as [e |] eqn:He; cbn; [| discriminate].
      intros [= <-]. specialize (Hall r e He).
      unfold lives_ok in *. cbn.
      destruct (bool_decide (r ∈ space g)); exact Hall.
  - pres; unfold enemies_wf, lives_ok in *; cbn in *; try assumption.
    case_bool_decide; cbn; assumption.
Qed.

Lemma Game_update_enemies_wf env : preserves enemies_wf (Game_update env).
Proof.
  pose proof (space_step_enemies_wf env) as Hstep.
  pose proof (verify_bullet_hit_enemies_wf env) as Hverify.
  pres; unfold enemies_wf, lives_ok in *; cbn in *; assumption.
Qed.

Lemma run_enemies_wf frames : preserves enemies_wf (run frames).
Proof.
  induction frames as [| env rest IH]; cbn.
  - apply preserves_ret.
  - apply preserves_bind; [apply Game_update_enemies_wf | intros _; exact IH].
Qed.

Lemma Game_init_enemies pm rnd :
  enemies (Game_init pm rnd) = [1; 2; 3; 4; 5]%nat.
Proof. vm_compute. reflexivity. Qed.

Lemma Game_init_enemy_obj pm rnd :
  enemy_obj (Game_init pm rnd) =
    list_to_map
      (map (fun i : nat =>
              (S i, mkEnemy (mkVec2d (rnd (6 * i + 2)%nat) (rnd (6 * i + 3)%nat))
                            (rnd (6 * i + 5)%nat) Enemy_lives))
           (seq 0 5)).
Proof. vm_compute. reflexivity. Qed.

Lemma Game_init_enemies_wf pm rnd : enemies_wf (Game_init pm rnd).
Proof.
  unfold enemies_wf, lives_ok.
  rewrite Game_init_enemies, Game_init_enemy_obj. cbn [map seq].
  rewrite !list_to_map_cons, list_to_map_nil.
  split; [| split].
  - apply (bool_decide_unpack (NoDup [1; 2; 3; 4; 5]%nat)). vm_compute. exact I.
  - intros r Hr.
    repeat (apply elem_of_cons in Hr as [-> | Hr];
            [rewrite ?lookup_insert_ne by lia; rewrite lookup_insert_eq;
             eauto |]).
    inversion Hr.
  - intros r e He.
    repeat (apply lookup_insert_Some in He as [[<- <-] | [_ He]];
            [cbn; unfold Enemy_lives;
             split; [lia | split; [intros _; lia | intros _; rewrite !elem_of_cons; auto 10]] |]).
    rewrite lookup_empty in He. discriminate.
Qed.

(** C5: at every point a run of the game can be in between updates, and
    where an update raised, every enemy object has [lives] within [0, 4]
    and is in [Game.enemies] exactly when its [lives] is above 0: the hit
    that brings [lives] to 0 is the one that removes it. *)
Theorem C5_lives_in_range_and_listed_while_positive (player_mass : Q)
    (rnd : nat -> Q) (frames : list Frame) :
  map_Forall
    (fun (r : ref) (e : Enemy) =>
       0 <= lives e <= 4 /\
       (r ∈ enemies (reached player_mass rnd frames) <-> 0 < lives e))
    (enemy_obj (reached player_mass rnd frames)) /\
  Forall (fun r => is_Some (enemy_obj (reached player_mass rnd frames) !! r))
    (enemies (reached player_mass rnd frames)).
Proof.
  destruct (run_enemies_wf frames (Game_init player_mass rnd)
              (Game_init_enemies_wf player_mass rnd)) as (_ & Hdom & Hall).
  split; [exact Hall |]. apply Forall_forall. exact Hdom.
Qed.

(** * Further properties: messages and contacts *)

(** X2: the jump key works exactly after a ground contact.  With W just
    pressed, the update that follows a post-solve contact whose normal
    from the player has y <= -0.5 sets the vertical velocity to
    [JUMP_SPEED]; after a contact with a higher normal, or once the
    contact has ended, the same key leaves the vertical velocity as it
    was. *)
Theorem X2_jump_follows_ground_contact (env : Frame) (arb : Arbiter)
    (g : Game) :
  btnp env KEY_W = true ->
  let n := normal_from arb player_shape in
  let touched := fst (Player_col_start arb g) in
  let left := fst (Player_col_end arb touched) in
  ((vy n <= - (1 # 2))%Q ->
     vy (velocity (Player_update env (player touched))) = Player_JUMP_SPEED) /\
  ((- (1 # 2) < vy n)%Q ->
     vy (velocity (Player_update env (player touched))) =
       vy (velocity (player g))) /\
  vy (velocity (Player_update env (player left))) = vy (velocity (player g)).
Proof.
  intros Hw n touched left. subst n touched left.
  unfold Player_col_start, Player_col_end, modify, Player_update. cbn.
  rewrite Hw. repeat split.
  - intros Hn. apply Qle_bool_iff in Hn. rewrite Hn. reflexivity.
  - intros Hn.
    destruct (Qle_bool _ _) eqn:E.
    + apply Qle_bool_iff in E. exfalso. exact (Qlt_not_le _ _ Hn E).
    + cbn. destruct (btn env KEY_A), (btn env KEY_D); reflexivity.
  - destruct (btn env KEY_A), (btn env KEY_D); reflexivity.
Qed.

Lemma X2_jump_follows_ground_contact_witness :
  vy (velocity (Player_update all_keys_frame
       (player (fst (Player_col_start
          (contact player_shape (enemy_shape 1%nat) (mkVec2d 0 (-1)))
          start))))) = Player_JUMP_SPEED.
Proof.
  refine (proj1 (X2_jump_follows_ground_contact all_keys_frame
            (contact player_shape (enemy_shape 1%nat) (mkVec2d 0 (-1)))
            start eq_refl) _).
  vm_compute. discriminate.
Defined.

(** X3: the enemy's begin-collision callback never raises, always lets
    the engine go on with the contact, and never touches the game's lists
    or any object's fields: a stomped enemy stays in [Game.enemies] with
    the lives it had. *)
Theorem X3_begin_callback_keeps_the_lists (self : ref) (arb : Arbiter)
    (g : Game) :
  snd (Enemy_begin self arb g) = Ok true /\
  enemies (fst (Enemy_begin self arb g)) = enemies g /\
  enemy_obj (fst (Enemy_begin self arb g)) = enemy_obj g /\
  bullets (fst (Enemy_begin self arb g)) = bullets g /\
  particles (fst (Enemy_begin self arb g)) = particles g /\
  player (fst (Enemy_begin self arb g)) = player g.
Proof.
  unfold Enemy_begin.
  destruct (shapes arb) as [shape_a shape_b].
  destruct (ColType_eqb (collision_type shape_a) PLAYER);
    destruct (Qltb _ _); cbn; repeat split; reflexivity.
Qed.

(** * Further properties: the death animation *)

Lemma bind_Ok {A B} (m : M A) (k : A -> M B) g g1 a :
  m g = (g1, Ok a) -> bind m k g = k a g1.
Proof. intros E. unfold bind. rewrite E. reflexivity. Qed.

Lemma emmit_exact self position velocity g gen len :
  emitter_at self gen len g ->
  snd (emmit self position velocity g) = Ok tt /\
  (gen < MAX_GENERATED ->
     emitter_at self (gen + 1) (S len) (fst (emmit self position velocity g))) /\
  (MAX_GENERATED <= gen -> emmit self position velocity g = (g, Ok tt)).
Proof.
  intros (d & Hd & Hgen & Hlen).
  cbv beta iota zeta delta [emmit bind keep_generating get_emitter gets ret].
  rewrite (lookup_total_correct _ _ _ Hd). rewrite Hgen.
  destruct (gen <? MAX_GENERATED) eqn:E; cbn [negb].
  - apply Z.ltb_lt in E. split; [reflexivity |]. split; [| lia].
    intros _. cbn.
    exists (mkDeathParticles (dp_particles d ++ [next_ref g]) (duration d)
              (generated d + 1) (color_scale d)).
    rewrite alter_alter_eq, (alter_alt_Some _ _ _ _ Hd). cbn.
    rewrite lookup_insert_eq, length_app. cbn. repeat split; lia.
  - apply Z.ltb_ge in E. split; [reflexivity |]. split; [lia |].
    intros _. reflexivity.
Qed.

Lemma random_draw_emitter_at self gen len g :
  emitter_at self gen len g -> emitter_at self gen len (fst (random_draw g)).
Proof. intros H. exact H. Qed.

(** One round of the loop of [generate_particles]. *)
Lemma generate_round self position g gen len :
  emitter_at self gen len g ->
  let round :=
    (do u1 <- random_draw; do s1 <- random_draw;
     do u2 <- random_draw; do s2 <- random_draw;
     emmit self position (mkVec2d (u1 * s1)%Q (u2 * s2)%Q)) in
  snd (round g) = Ok tt /\
  (gen < MAX_GENERATED -> emitter_at self (gen + 1) (S len) (fst (round g))) /\
  (MAX_GENERATED <= gen -> emitter_at self gen len (fst (round g))).
Proof.
  intros H round. subst round.
  cbv beta iota zeta delta [bind random_draw].
  match goal with
  | |- context [emmit self position ?v ?g1] =>
      destruct (emmit_exact self position v g1 gen len H) as (Ho & Hlt & Hge)
  end.
  split; [exact Ho |]. split; [exact Hlt |].
  intros Hcap. rewrite (Hge Hcap). exact H.
Qed.

Lemma generate_rounds self position (xs : list nat) :
  forall g gen len,
    emitter_at self gen len g ->
    0 <= gen <= MAX_GENERATED ->
    let loop :=
      for_each xs (fun _ : nat =>
        do u1 <- random_draw; do s1 <- random_draw;
        do u2 <- random_draw; do s2 <- random_draw;
        emmit self position (mkVec2d (u1 * s1)%Q (u2 * s2)%Q)) in
    let gen' := Z.min MAX_GENERATED (gen + Z.of_nat (length xs)) in
    snd (loop g) = Ok tt /\
    emitter_at self gen' (len + Z.to_nat (gen' - gen)) (fst (loop g)).
Proof.
  induction xs as [| x xs IH]; intros g gen len H Hgen loop gen'.
  - subst loop gen'. cbn [for_each length]. split; [reflexivity |].
    assert (E : Z.min MAX_GENERATED (gen + Z.of_nat 0) = gen) by lia.
    rewrite E. replace (len + Z.to_nat (gen - gen))%nat with len by lia.
    exact H.
  - subst loop gen'. cbn [for_each length].
    destruct (generate_round self position g gen len H) as (Ho & Hlt & Hge).
    match type of Ho with
    | snd ?r = _ => destruct r as [g1 o1] eqn:E1
    end.
    cbn [fst snd] in Ho, Hlt, Hge. subst o1. rewrite !(bind_Ok _ _ _ _ _ E1).
    destruct (Z_lt_le_dec gen MAX_GENERATED) as [Hl | Hl].
    + destruct (IH g1 (gen + 1) (S len) (Hlt Hl))
        as [Ho' (d' & Hd' & Hg' & Hl')]; [lia |].
      split; [exact Ho' |]. exists d'.
      unfold MAX_GENERATED in *. repeat split; [exact Hd' | lia | lia].
    + destruct (IH g1 gen len (Hge Hl))
        as [Ho' (d' & Hd' & Hg' & Hl')]; [lia |].
      split; [exact Ho' |]. exists d'.
      unfold MAX_GENERATED in *. repeat split; [exact Hd' | lia | lia].
Qed.

Lemma generate_particles_exact (self : ref) (position : Vec2d)
    (batch_size : Z) (g : Game) (d : DeathParticles) :
  emitter_obj g !! self = Some d ->
  0 <= generated d <= MAX_GENERATED ->
  snd (generate_particles self position batch_size g) = Ok tt /\
  generated (emitter_obj (fst (generate_particles self position batch_size g))
               !!! self) =
    Z.min MAX_GENERATED (generated d + Z.max 0 batch_size) /\
  length (dp_particles
            (emitter_obj (fst (generate_particles self position batch_size g))
               !!! self)) =
    (length (dp_particles d) +
     Z.to_nat (Z.min MAX_GENERATED (generated d + Z.max 0 batch_size) -
               generated d))%nat.
Proof.
  intros Hd Hgen.
  assert (Hat : emitter_at self (generated d) (length (dp_particles d)) g)
    by (exists d; repeat split; assumption).
  unfold generate_particles.
  cbv beta iota zeta delta [bind keep_generating get_emitter gets ret].
  rewrite (lookup_total_correct _ _ _ Hd).
  destruct (generated d <? MAX_GENERATED) eqn:E; cbn [negb].
  - destruct (generate_rounds self position (range batch_size) g
                (generated d) (length (dp_particles d)) Hat Hgen)
      as [Ho (d' & Hd' & Hg' & Hl')].
    unfold range in *. rewrite length_seq in *.
    rewrite (lookup_total_correct _ _ _ Hd').
    replace (Z.of_nat (Z.to_nat batch_size)) with (Z.max 0 batch_size)
      in * by lia.
    split; [exact Ho |]. split; [exact Hg' |]. exact Hl'.
  - apply Z.ltb_ge in E. cbn [fst snd].
    rewrite (lookup_total_correct _ _ _ Hd).
    split; [reflexivity |].
    replace (Z.min MAX_GENERATED (generated d + Z.max 0 batch_size))
      with (generated d) by lia.
    split; [reflexivity |]. lia.
Qed.

(** X6: [generate_particles] tops the emitter up to the cap and never
    raises.  From [generated = k] within [0, 100], a batch of size [b]
    leaves [generated = min 100 (k + max 0 b)] and adds exactly the
    difference to the particle list; at the cap, or for a batch size
    below one, nothing is emitted. *)
Theorem X6_generate_particles_tops_up (self : ref) (position : Vec2d)
    (batch_size : Z) (g : Game) (d : DeathParticles) :
  emitter_obj g !! self = Some d ->
  0 <= generated d <= MAX_GENERATED ->
  let g' := fst (generate_particles self position batch_size g) in
  let d' := emitter_obj g' !!! self in
  snd (generate_particles self position batch_size g) = Ok tt /\
  generated d' =
    Z.min MAX_GENERATED (generated d + Z.max 0 batch_size) /\
  length (dp_particles d') =
    (length (dp_particles d) + Z.to_nat (generated d' - generated d))%nat.
Proof.
  intros Hd Hgen g' d'. subst g' d'.
  destruct (generate_particles_exact self position batch_size g d Hd Hgen)
    as (Ho & Hg' & Hl').
  split; [exact Ho |]. split; [exact Hg' |]. rewrite Hl', Hg'. reflexivity.
Qed.

Lemma X6_generate_particles_tops_up_witness :
  generated
    (emitter_obj
       (fst (generate_particles 6%nat origin 250
               (fst (DeathParticles_init start)))) !!! 6%nat) =
    Z.min MAX_GENERATED (0 + Z.max 0 250).
Proof.
  refine (proj1 (proj2 (X6_generate_particles_tops_up 6%nat origin 250
            (fst (DeathParticles_init start))
            (mkDeathParticles [] MAX_DURATION 0 (MAX_DURATION / 6)%Q) _ _))).
  - vm_compute. reflexivity.
  - vm_compute. split; discriminate.
Defined.

Lemma list_remove_not_elem_of x l : x ∉ l -> list_remove x l = None.
Proof.
  induction l as [| y l IH]; intros Hx; [reflexivity |]. cbn.
  apply not_elem_of_cons in Hx as [Hne Hx].
  apply Nat.eqb_neq in Hne. rewrite Hne, (IH Hx). reflexivity.
Qed.

Lemma space_create_circle_out_of_space e position velocity :
  preserves (out_of_space e) (space_create_circle position velocity).
Proof.
  intros g [Hout Hlt]. split; cbn; [| lia].
  rewrite elem_of_app, list_elem_of_singleton. intros [H | H]; [auto | lia].
Qed.

Lemma generate_particles_out_of_space e self position batch_size :
  preserves (out_of_space e) (generate_particles self position batch_size).
Proof.
  pose proof (space_create_circle_out_of_space e) as Hcircle.
  pres; unfold out_of_space in *; cbn in *; assumption.
Qed.

Lemma generate_particles_same_lists st bs ps self position batch_size :
  preserves (same_lists st bs ps)
    (generate_particles self position batch_size).
Proof. pres; unfold same_lists in *; cbn in *; assumption. Qed.

(** X7: [del_enemy] on an enemy of the list removes it from the list and
    from the space, leaves the lives and the other enemies as they were,
    and appends exactly one new emitter to [Game.particles], which has
    emitted its full 100 particles; the state and the bullets are not
    touched.  On an enemy that is not in the list it raises [ValueError]
    and changes nothing. *)
Theorem X7_del_enemy_unlinks_and_spawns_one_emitter (env : Frame)
    (e : ref) (g : Game) :
  (e < next_ref g)%nat ->
  let g' := fst (del_enemy env e g) in
  (e ∉ enemies g -> del_enemy env e g = (g, Raise ValueError)) /\
  (e ∈ enemies g ->
     snd (del_enemy env e g) = Ok tt /\
     list_remove e (enemies g) = Some (enemies g') /\
     enemy_obj g' = enemy_obj g /\
     (e ∉ space g') /\
     particles g' = particles g ++ [next_ref g] /\
     generated (emitter_obj g' !!! next_ref g) = MAX_GENERATED /\
     length (dp_particles (emitter_obj g' !!! next_ref g)) = 100%nat /\
     state g' = state g /\ bullets g' = bullets g).
Proof.
  intros Hlt g'. subst g'. split.
  - intros Hout. unfold del_enemy, bind, remove_from.
    rewrite (list_remove_not_elem_of _ _ Hout). reflexivity.
  - intros Hin.
    destruct (list_remove_elem_of e (enemies g) Hin) as [l Hl].
    destruct (del_enemy_same_enemies env e g l Hl) as [Hen Hobj].
    rewrite Hen, Hobj.
    unfold del_enemy.
    cbv beta iota zeta delta
      [bind remove_from space_remove DeathParticles_init alloc modify
       random_draw ret].
    rewrite Hl. cbn [set_enemies set_space set_next_ref set_emitter_obj
                     set_rand_pos enemies space next_ref emitter_obj rand
                     rand_pos state player bullets particles enemy_obj
                     bullet_obj particle_obj].
    match goal with
    | |- context [generate_particles ?s ?p ?b ?w] =>
        set (pos := p); set (w4 := w)
    end.
    assert (Hd4 : emitter_obj w4 !! next_ref g =
                  Some (mkDeathParticles [] MAX_DURATION 0
                          (MAX_DURATION / 6)%Q))
      by (apply lookup_insert_eq).
    destruct (generate_particles_exact (next_ref g) pos 100 w4 _ Hd4)
      as (Ho & Hgen & Hlen); [cbn; unfold MAX_GENERATED; lia |].
    assert (Hsp : out_of_space e
                    (fst (generate_particles (next_ref g) pos 100 w4))).
    { apply generate_particles_out_of_space. split; cbn; [| lia].
      rewrite list_elem_of_filter. intros [Hne _]. apply Hne. reflexivity. }
    assert (Hls : same_lists (state g) (bullets g) (particles g)
                    (fst (generate_particles (next_ref g) pos 100 w4))).
    { apply generate_particles_same_lists. repeat split. }
    destruct (generate_particles (next_ref g) pos 100 w4) as [g5 o5].
    cbn [fst snd] in *. subst o5. cbn.
    destruct Hsp as [Hsp _]. destruct Hls as (Hst & Hbs & Hps).
    rewrite Hgen, Hlen, Hps, Hst, Hbs. cbn.
    repeat split; try reflexivity. exact Hsp.
Qed.

Lemma X7_del_enemy_unlinks_and_spawns_one_emitter_witness :
  particles (fst (del_enemy idle_frame 1%nat start)) = [] ++ [6%nat].
Proof.
  assert (Hlt : (1 < next_ref start)%nat) by (vm_compute; lia).
  assert (Hin : 1%nat ∈ enemies start).
  { apply list_elem_of_In. vm_compute. left. reflexivity. }
  exact (proj1 (proj2 (proj2 (proj2 (proj2
    (proj2 (X7_del_enemy_unlinks_and_spawns_one_emitter idle_frame 1%nat
              start Hlt) Hin)))))).
Defined.

(** * Further properties: the bullet list over a run *)

Lemma shoot_bullet_capped env : preserves bullets_capped (shoot_bullet env).
Proof.
  intros g H. unfold bullets_capped in *.
  destruct (Nat.le_gt_cases (length (bullets g)) MAX_BULLETS) as [Hle | Hgt].
  - destruct (shoot_bullet_appends env g Hle) as [_ Hb].
    rewrite Hb, length_app. cbn. lia.
  - unfold shoot_bullet, bind, gets.
    apply Nat.ltb_lt in Hgt. rewrite Hgt. exact H.
Qed.

Lemma Game_update_bullets_capped env :
  preserves bullets_capped (Game_update env).
Proof.
  pose proof (shoot_bullet_capped env) as Hshoot.
  pres; unfold bullets_capped in *; cbn in *; try assumption.
  all: try (case_bool_decide; cbn; assumption).
  all: match goal with
       | H : list_remove _ _ = Some _ |- _ =>
           apply list_remove_length in H; lia
       end.
Qed.

Lemma run_bullets_capped frames : preserves bullets_capped (run frames).
Proof.
  induction frames as [| env rest IH]; cbn.
  - apply preserves_ret.
  - apply preserves_bind;
      [apply Game_update_bullets_capped | intros _; exact IH].
Qed.

Lemma Game_init_bullets pm rnd :
  bullets (Game_init pm rnd) = [] /\ next_ref (Game_init pm rnd) = 6%nat.
Proof. vm_compute. split; reflexivity. Qed.

(** X8: in every run of the game the bullet list holds at most
    [MAX_BULLETS + 1] = 11 bullets. *)
Theorem X8_at_most_eleven_bullets (player_mass : Q) (rnd : nat -> Q)
    (frames : list Frame) :
  (length (bullets (reached player_mass rnd frames)) <= 11)%nat.
Proof.
  apply (run_bullets_capped frames (Game_init player_mass rnd)).
  unfold bullets_capped.
  rewrite (proj1 (Game_init_bullets player_mass rnd)). cbn. lia.
Qed.

Ltac bullets_wf_leaf :=
  unfold bullets_wf in *; cbn in *;
  try assumption;
  try (case_bool_decide; cbn; assumption);
  try match goal with
      | H : NoDup _ /\ _ |- NoDup _ /\ _ =>
          let Hnd := fresh "Hnd" in
          let Hall := fresh "Hall" in
          destruct H as [Hnd Hall]; split; [exact Hnd |];
          let b := fresh "b" in
          let Hb := fresh "Hb" in
          intros b Hb; destruct (Hall b Hb) as [? ?]; split; [lia | assumption]
      end.

Lemma del_bullet_bullets_wf b : preserves bullets_wf (del_bullet b).
Proof.
  unfold del_bullet. apply preserves_remove_from.
  intros g l [Hnd Hall] E. cbn.
  destruct (list_remove_NoDup _ _ _ Hnd E) as [Hnd' Hiff].
  split; [exact Hnd' |]. intros x Hx. apply Hiff in Hx as [Hx _].
  exact (Hall x Hx).
Qed.

Lemma verify_bullet_hit_enemies_bullets_wf env b :
  preserves bullets_wf (verify_bullet_hit_enemies env b).
Proof.
  pose proof del_bullet_bullets_wf as Hdel.
  pres; bullets_wf_leaf.
Qed.

Lemma Bullet_update_bullets_wf b g :
  bullets_wf g -> b ∈ bullets g -> bullets_wf (fst (Bullet_update b g)).
Proof.
  intros [Hnd Hall] Hin.
  destruct (Hall b Hin) as [Hlt (o & Ho & Hlife)].
  rewrite (Bullet_update_unfold g b o Ho).
  destruct (life_time o - 1 <? 0) eqn:E.
  - unfold del_bullet, remove_from, put_bullet. cbn.
    destruct (list_remove_elem_of b (bullets g) Hin) as [l Hl]. rewrite Hl.
    destruct (list_remove_NoDup _ _ _ Hnd Hl) as [Hnd' Hiff]. cbn.
    split; [exact Hnd' |]. intros x Hx. apply Hiff in Hx as [Hx Hne].
    destruct (Hall x Hx) as [Hxlt Hxo]. split; [exact Hxlt |]. cbn.
    rewrite lookup_insert_ne by congruence. exact Hxo.
  - apply Z.ltb_ge in E. unfold put_bullet. cbn.
    split; [exact Hnd |]. intros x Hx.
    destruct (Hall x Hx) as [Hxlt Hxo]. split; [exact Hxlt |].
    cbn. destruct (decide (x = b)) as [-> | Hne].
    + rewrite lookup_insert_eq. eexists. split; [reflexivity |]. cbn. lia.
    + rewrite lookup_insert_ne by congruence. exact Hxo.
Qed.

Lemma shoot_bullet_bullets_wf env : preserves bullets_wf (shoot_bullet env).
Proof.
  intros g [Hnd Hall].
  destruct (Nat.le_gt_cases (length (bullets g)) MAX_BULLETS) as [Hle | Hgt].
  - unfold shoot_bullet, bind, gets.
    destruct (MAX_BULLETS <? length (bullets g))%nat eqn:E;
      [apply Nat.ltb_lt in E; lia |].
    cbn. split.
    + apply NoDup_app. split; [exact Hnd |]. split; [| apply NoDup_singleton].
      intros x Hx Hx'. apply list_elem_of_singleton in Hx'.
      destruct (Hall x Hx) as [Hlt _]. lia.
    + intros x Hx. apply elem_of_app in Hx as [Hx | Hx].
      * destruct (Hall x Hx) as [Hlt Ho]. split; cbn; [lia |].
        rewrite lookup_insert_ne by lia. exact Ho.
      * apply list_elem_of_singleton in Hx. subst x. split; cbn; [lia |].
        rewrite lookup_insert_eq. eexists. split; [reflexivity |].
        cbn. unfold Bullet_life_time. lia.
  - unfold shoot_bullet, bind, gets.
    apply Nat.ltb_lt in Hgt. rewrite Hgt. split; assumption.
Qed.

Lemma Game_update_bullets_wf env : preserves bullets_wf (Game_update env).
Proof.
  pose proof (shoot_bullet_bullets_wf env) as Hshoot.
  assert (Hbody : forall b g, bullets_wf g -> b ∈ bullets g ->
            bullets_wf (fst ((Bullet_update b;;
                              verify_bullet_hit_enemies env b) g))).
  { intros b g Hwf Hin. unfold bind.
    pose proof (Bullet_update_bullets_wf b g Hwf Hin) as H1.
    destruct (Bullet_update b g) as [g1 [[] | e |]]; cbn [fst snd] in *;
      [| exact H1 | exact H1].
    apply verify_bullet_hit_enemies_bullets_wf, H1. }
  unfold Game_update.
  do 3 through_bind ltac:(pres; bullets_wf_leaf).
  apply preserves_bind; [apply preserves_gets | intros nb].
  apply preserves_bind; [apply for_in_invariant; exact Hbody | intros _].
  pres; bullets_wf_leaf.
Qed.

Lemma run_bullets_wf frames : preserves bullets_wf (run frames).
Proof.
  induction frames as [| env rest IH]; cbn.
  - apply preserves_ret.
  - apply preserves_bind; [apply Game_update_bullets_wf | intros _; exact IH].
Qed.

(** X9: in every run of the game the listed
    bullets are distinct and each has a life time between 0 and 150: a
    bullet is out of the list in the very update that brings its life
    time below 0. *)
Theorem X9_listed_bullets_are_alive (player_mass : Q) (rnd : nat -> Q)
    (frames : list Frame) :
  NoDup (bullets (reached player_mass rnd frames)) /\
  Forall
    (fun b =>
       exists o,
         bullet_obj (reached player_mass rnd frames) !! b = Some o /\
         0 <= life_time o <= 150)
    (bullets (reached player_mass rnd frames)).
Proof.
  destruct (run_bullets_wf frames (Game_init player_mass rnd)) as [Hnd Hall].
  - unfold bullets_wf.
    rewrite (proj1 (Game_init_bullets player_mass rnd)).
    split; [apply NoDup_nil_2 | intros b Hb; inversion Hb].
  - split; [exact Hnd |]. apply Forall_forall. intros b Hb.
    exact (proj2 (Hall b Hb)).
Qed.

(** * Further properties: what an update never does *)

Lemma list_remove_sublist x l l' :
  list_remove x l = Some l' -> l' `sublist_of` l.
Proof.
  revert l'. induction l as [| y l IH]; intros l' E; cbn in E;
    [discriminate |].
  destruct (Nat.eqb x y).
  - injection E as <-. apply sublist_cons. reflexivity.
  - destruct (list_remove x l) as [r |]; [| discriminate].
    injection E as <-. apply sublist_skip, IH. reflexivity.
Qed.

(** Reading a field and going on with it. *)
Lemma preserves_bind_gets {A B} (P : Game -> Prop) (f : Game -> A)
    (k : A -> M B) :
  (forall g, P g -> P (fst (k (f g) g))) -> preserves P (bind (gets f) k).
Proof. intros H g Hg. unfold bind, gets. apply H, Hg. Qed.

Ltac stopped_leaf :=
  unfold stopped_with in *; cbn in *;
  try assumption;
  try (case_bool_decide; cbn; assumption);
  try (split; [discriminate | tauto]);
  try match goal with
      | H : list_remove _ _ = Some _, H' : _ /\ _ |- _ =>
          apply list_remove_sublist in H; destruct H' as [? ?];
          split; [assumption | etrans; eassumption]
      end.

Lemma Game_update_stopped_with l env :
  preserves (stopped_with l) (Game_update env).
Proof.
  unfold Game_update.
  do 7 through_bind ltac:(pres; stopped_leaf).
  apply preserves_bind_gets. intros g [Hst Hsub].
  assert (E : GameState_eqb (state g) RUNNING = false)
    by (destruct (state g); [contradiction | reflexivity | reflexivity]).
  rewrite E. cbn [andb].
  match goal with
  | |- stopped_with l (fst (?m g)) =>
      enough (Hp : preserves (stopped_with l) m) by (apply Hp; split; assumption)
  end.
  pres; stopped_leaf.
Qed.

Lemma run_stopped_with l frames : preserves (stopped_with l) (run frames).
Proof.
  induction frames as [| env rest IH]; cbn.
  - apply preserves_ret.
  - apply preserves_bind;
      [apply Game_update_stopped_with | intros _; exact IH].
Qed.

(** X10: once the game is over or won no bullet is
    fired any more: whatever the frames bring, the bullet list after them
    is a sublist of the one before. *)
Theorem X10_no_firing_once_stopped (frames : list Frame) (g : Game) :
  state g <> RUNNING ->
  bullets (fst (run frames g)) `sublist_of` bullets g.
Proof.
  intros Hst.
  apply (run_stopped_with (bullets g) frames g). split; [exact Hst |].
  reflexivity.
Qed.

Lemma X10_no_firing_once_stopped_witness :
  bullets (fst (run [click_frame; click_frame]
                  (set_state GAME_OVER start)))
    `sublist_of` bullets (set_state GAME_OVER start).
Proof.
  apply (X10_no_firing_once_stopped [click_frame; click_frame]
           (set_state GAME_OVER start)).
  cbn. discriminate.
Defined.

Ltac below_leaf :=
  unfold enemies_below in *; cbn in *;
  try assumption;
  try (case_bool_decide; cbn; assumption).

Lemma upd_enemy_lives_below l h e :
  preserves (enemies_below l h)
    (upd_enemy e
       (fun eo => mkEnemy (e_position eo) (e_radius eo) (lives eo - 1))).
Proof.
  apply preserves_modify. intros g [Hsub Hall]. split; [exact Hsub |]. cbn.
  intros r x Hx. destruct (Hall r x Hx) as (x' & Hx' & Hl & Hr).
  destruct (decide (e = r)) as [-> | Hne].
  - rewrite lookup_alter_eq, Hx'. cbn. eexists. split; [reflexivity |].
    cbn. split; [lia | exact Hr].
  - rewrite lookup_alter_ne by exact Hne. eauto.
Qed.

Lemma space_step_enemies_below l h env :
  preserves (enemies_below l h) (space_step env).
Proof.
  unfold space_step.
  apply preserves_bind; [| intros _].
  - apply preserves_modify. intros g [Hsub Hall]. split; [exact Hsub |]. cbn.
    intros r x Hx. destruct (Hall r x Hx) as (x' & Hx' & Hl & Hr).
    rewrite map_lookup_imap, Hx'. cbn. eexists. split; [reflexivity |].
    destruct (bool_decide (r ∈ space g)); cbn; split; assumption.
  - pres; below_leaf.
Qed.

Lemma Game_update_enemies_below l h env :
  preserves (enemies_below l h) (Game_update env).
Proof.
  pose proof (space_step_enemies_below l h env) as Hstep.
  pose proof (upd_enemy_lives_below l h) as Hupd.
  pres; below_leaf.
  match goal with
  | H : list_remove _ _ = Some _, H' : _ /\ _ |- _ =>
      apply list_remove_sublist in H; destruct H' as [? ?];
      split; [etrans; eassumption | assumption]
  end.
Qed.

(** X11: an update never adds an enemy and never
    gives one a life back: the enemy list after it is a sublist of the
    one before, and every enemy object keeps its radius and has at most
    the lives it had. *)
Theorem X11_enemies_only_leave_and_lives_only_fall (env : Frame) (g : Game) :
  enemies (fst (Game_update env g)) `sublist_of` enemies g /\
  map_Forall
    (fun r e =>
       exists e', enemy_obj (fst (Game_update env g)) !! r = Some e' /\
                  lives e' <= lives e /\ e_radius e' = e_radius e)
    (enemy_obj g).
Proof.
  apply (Game_update_enemies_below (enemies g) (enemy_obj g) env g).
  split; [reflexivity |]. intros r e He. eauto with lia.
Qed.

(** * Further properties: a game that is over *)

Lemma space_step_game_over env : preserves game_over (space_step env).
Proof.
  pres; unfold game_over in *; cbn in *; try assumption; try reflexivity.
  case_bool_decide; cbn; assumption.
Qed.

Lemma bullets_loop_game_over env n :
  preserves game_over
    (for_in n bullets
       (fun b => Bullet_update b;; verify_bullet_hit_enemies env b) 0).
Proof. pres; unfold game_over in *; cbn in *; assumption. Qed.

Lemma particles_loop_game_over n :
  preserves game_over (for_in n particles DeathParticles_update 0).
Proof. pres; unfold game_over in *; cbn in *; assumption. Qed.

(** Two continuations that agree wherever the first part can end. *)
Lemma bind_ext_on {A B} (m : M A) (k k' : A -> M B) g :
  (forall a g1, m g = (g1, Ok a) -> k a g1 = k' a g1) ->
  bind m k g = bind m k' g.
Proof.
  intros H. unfold bind. destruct (m g) as [g1 [a | e |]]; auto.
Qed.

(** X12: a game that is over does not listen to
    the keyboard or the mouse buttons: whatever keys and buttons are down
    or just pressed, the update does the same. *)
Theorem X12_game_over_ignores_the_keys (held pressed : Key -> bool)
    (env : Frame) (g : Game) :
  state g = GAME_OVER ->
  Game_update (with_keys held pressed env) g = Game_update env g.
Proof.
  intros Hst. unfold Game_update.
  change (space_step (with_keys held pressed env)) with (space_step env).
  change (verify_bullet_hit_enemies (with_keys held pressed env))
    with (verify_bullet_hit_enemies env).
  apply bind_ext_on. intros [] g1 E1.
  pose proof (space_step_game_over env g Hst) as H1.
  rewrite E1 in H1. cbn [fst] in H1. unfold game_over in H1.
  apply bind_ext_on. intros st g1' E. injection E as <- <-. rewrite H1.
  cbn [GameState_eqb GameState_value Z.eqb Pos.eqb negb].
  apply bind_ext_on. intros [] g1' E. injection E as <-.
  apply bind_ext_on. intros nb g1' E. injection E as <- <-.
  apply bind_ext_on. intros [] g2 E2.
  pose proof (bullets_loop_game_over env (length (bullets g1)) g1 H1) as H2.
  rewrite E2 in H2. cbn [fst] in H2. unfold game_over in H2.
  apply bind_ext_on. intros np g2' E. injection E as <- <-.
  apply bind_ext_on. intros [] g3 E3.
  pose proof (particles_loop_game_over (length (particles g2)) g2 H2) as H3.
  rewrite E3 in H3. cbn [fst] in H3. unfold game_over in H3.
  apply bind_ext_on. intros st g3' E. injection E as <- <-. rewrite H3.
  reflexivity.
Qed.

Lemma X12_game_over_ignores_the_keys_witness :
  Game_update (with_keys (fun _ => true) (fun _ => true) idle_frame)
    (set_state GAME_OVER start) =
  Game_update idle_frame (set_state GAME_OVER start).
Proof.
  apply (X12_game_over_ignores_the_keys (fun _ => true) (fun _ => true)
           idle_frame (set_state GAME_OVER start)).
  reflexivity.
Defined.

(** * Further properties: the hit test *)

(** A loop whose remaining steps all change nothing. *)
Lemma for_in_noop_rest lst body :
  forall fuel i g,
    (forall j x, (i <= j)%nat -> lst g !! j = Some x -> body x g = (g, Ok tt)) ->
    (length (lst g) <= fuel + i)%nat ->
    for_in fuel lst body i g = (g, Ok tt).
Proof.
  induction fuel as [| fuel IH]; intros i g Hnoop Hlen; cbn.
  - destruct (lst g !! i) eqn:E; [| reflexivity].
    apply lookup_lt_Some in E. lia.
  - destruct (lst g !! i) as [x |] eqn:E; [| reflexivity].
    rewrite (Hnoop i x (Nat.le_refl _) E).
    apply IH; [| lia]. intros j y Hj. apply Hnoop. lia.
Qed.

Lemma verify_bullet_hit_enemies_miss (env : Frame) (b : ref) (g : Game) :
  Forall
    (fun e =>
       overlaps (b_position (bullet_obj g !!! b)) (enemy_obj g !!! e) = false)
    (enemies g) ->
  verify_bullet_hit_enemies env b g = (g, Ok tt).
Proof.
  intros Hmiss. unfold verify_bullet_hit_enemies.
  cbv beta iota zeta delta [bind get_bullet gets].
  apply for_in_noop_rest; [| lia].
  intros j e _ He. cbv beta iota zeta delta [bind get_enemy gets].
  assert (Hin : e ∈ enemies g) by (eapply list_elem_of_lookup_2; eauto).
  rewrite Forall_forall in Hmiss. specialize (Hmiss e Hin).
  unfold overlaps in Hmiss. rewrite Hmiss. reflexivity.
Qed.

Lemma list_remove_middle x l1 l2 :
  x ∉ l1 -> list_remove x (l1 ++ x :: l2) = Some (l1 ++ l2).
Proof.
  induction l1 as [| y l1 IH]; intros Hx; cbn.
  - rewrite Nat.eqb_refl. reflexivity.
  - apply not_elem_of_cons in Hx as [Hne Hx].
    apply Nat.eqb_neq in Hne. rewrite Hne, (IH Hx). reflexivity.
Qed.

(** * Further properties: removal while the bullets are iterated *)

(** The loop rule with the position of the element. *)
Lemma for_in_invariant_from (P : Game -> Prop) lst body i0 :
  (forall x g j, (i0 <= j)%nat -> P g -> lst g !! j = Some x ->
                 P (fst (body x g))) ->
  forall fuel i, (i0 <= i)%nat -> preserves P (for_in fuel lst body i).
Proof.
  intros Hb fuel. induction fuel as [| fuel IH]; intros i Hi g H; cbn.
  - destruct (lst g !! i); exact H.
  - destruct (lst g !! i) as [x |] eqn:E; [| exact H].
    specialize (Hb x g i Hi H E).
    destruct (body x g) as [g' [a | e |]]; cbn in *; auto.
    apply IH; [lia | exact Hb].
Qed.

Lemma for_in_step lst body fuel i g x g' :
  lst g !! i = Some x ->
  body x g = (g', Ok tt) ->
  for_in (S fuel) lst body i g = for_in fuel lst body (S i) g'.
Proof. intros Hx Hb. cbn. rewrite Hx, Hb. reflexivity. Qed.

Lemma list_remove_keeps_head x y l l' :
  x <> y -> list_remove x (y :: l) = Some l' -> l' !! 0%nat = Some y.
Proof.
  intros Hne E. cbn in E. apply Nat.eqb_neq in Hne. rewrite Hne in E.
  destruct (list_remove x l); [| discriminate]. injection E as <-. reflexivity.
Qed.

Lemma later_bullet_heads_untouched env b1 b2 o2 x :
  x <> b2 ->
  preserves (heads_untouched b1 b2 o2)
    (Bullet_update x;; verify_bullet_hit_enemies env x).
Proof.
  intros Hne.
  assert (Hdel : preserves (heads_untouched b1 b2 o2) (del_bullet x)).
  { unfold del_bullet. apply preserves_remove_from.
    intros g l (Hhead & Hnd & Hobj & Hgone) E.
    destruct (list_remove_NoDup _ _ _ Hnd E) as [Hnd' Hiff].
    split; [| split; [| split]]; cbn; [| exact Hnd' | exact Hobj |].
    - destruct (bullets g) as [| y l0]; [discriminate |].
      injection Hhead as ->. eapply list_remove_keeps_head; eauto.
    - intros H. apply Hiff in H as [H _]. contradiction. }
  assert (Hupd : forall f,
            preserves (heads_untouched b1 b2 o2) (upd_bullet x f)).
  { intros f. apply preserves_modify. intros g (Hhead & Hnd & Hobj & Hgone).
    split; [| split; [| split]]; cbn; [exact Hhead | exact Hnd | | exact Hgone].
    rewrite lookup_alter_ne by exact Hne. exact Hobj. }
  pres; unfold heads_untouched in *; cbn in *; assumption.
Qed.

(** X15: removal during the iteration makes the
    loop of [Game.update] step over a bullet.  When the first listed
    bullet runs out of life time in this pass and hits no enemy, the
    second listed bullet is not updated in this pass: it stays in the list
    with the position and life time it had. *)
Theorem X15_expiry_makes_the_loop_skip_a_bullet (env : Frame)
    (b1 b2 : ref) (rest : list ref) (o1 o2 : Bullet) (g : Game) :
  bullets g = b1 :: b2 :: rest ->
  NoDup (bullets g) ->
  bullet_obj g !! b1 = Some o1 ->
  bullet_obj g !! b2 = Some o2 ->
  life_time o1 = 0 ->
  Forall
    (fun e => overlaps (b_position (Bullet_moved o1)) (enemy_obj g !!! e)
              = false)
    (enemies g) ->
  let g' :=
    fst (for_in (length (bullets g)) bullets
           (fun b => Bullet_update b;; verify_bullet_hit_enemies env b)
           0 g) in
  (b1 ∉ bullets g') /\ b2 ∈ bullets g' /\ bullet_obj g' !! b2 = Some o2.
Proof.
  intros Hl Hnd Ho1 Ho2 Hlife Hmiss g'. subst g'.
  assert (Hne : b1 <> b2).
  { rewrite Hl in Hnd. apply NoDup_cons in Hnd as [Hnd _].
    intros ->. apply Hnd. left. }
  set (body := fun b => Bullet_update b;; verify_bullet_hit_enemies env b).
  set (g1 := set_bullets (b2 :: rest) (put_bullet b1 (Bullet_moved o1) g)).
  assert (Hfirst : body b1 g = (g1, Ok tt)).
  { subst body. cbv beta. unfold bind.
    rewrite (Bullet_update_unfold g b1 o1 Ho1), Hlife.
    change (0 - 1 <? 0) with true. cbv iota.
    unfold del_bullet, remove_from, put_bullet.
    cbn [bullets set_bullet_obj]. rewrite Hl. cbn [list_remove].
    rewrite Nat.eqb_refl.
    change (verify_bullet_hit_enemies env b1 g1 = (g1, Ok tt)).
    apply verify_bullet_hit_enemies_miss.
    subst g1. unfold put_bullet.
    cbn [enemies enemy_obj bullet_obj set_bullets set_bullet_obj].
    rewrite lookup_total_insert_eq. exact Hmiss. }
  assert (Hlen : length (bullets g) = S (S (length rest)))
    by (rewrite Hl; reflexivity).
  rewrite Hlen.
  rewrite (for_in_step bullets body (S (length rest)) 0 g b1 g1);
    [| rewrite Hl; reflexivity | exact Hfirst].
  assert (Hinv : heads_untouched b1 b2 o2 g1).
  { subst g1. unfold heads_untouched, put_bullet.
    cbn [bullets bullet_obj set_bullets set_bullet_obj].
    rewrite Hl in Hnd. apply NoDup_cons in Hnd as [Hb1 Hnd].
    split; [reflexivity |]. split; [exact Hnd |]. split; [| exact Hb1].
    rewrite lookup_insert_ne by exact Hne. exact Ho2. }
  assert (Hloop : preserves (heads_untouched b1 b2 o2)
                    (for_in (S (length rest)) bullets body 1)).
  { apply (for_in_invariant_from _ bullets body 1); [| lia].
    intros x w j Hj (Hhead & Hnd' & Hobj & Hgone) Hx.
    assert (Hx2 : x <> b2).
    { intros ->. pose proof (NoDup_lookup _ _ _ _ Hnd' Hx Hhead). lia. }
    subst body. cbv beta.
    apply (later_bullet_heads_untouched env b1 b2 o2 x Hx2 w).
    repeat split; assumption. }
  destruct (Hloop g1 Hinv) as (Hhead & Hnd2 & Hobj & Hgone).
  split; [exact Hgone |].
  split; [eapply list_elem_of_lookup_2; exact Hhead | exact Hobj].
Qed.

Lemma X15_expiry_makes_the_loop_skip_a_bullet_witness :
  bullet_obj
    (fst (for_in (length (bullets two_bullets_world)) bullets
            (fun b => Bullet_update b;;
                      verify_bullet_hit_enemies idle_frame b)
            0 two_bullets_world)) !! 7%nat =
  Some (bullet_obj two_bullets_world !!! 7%nat).
Proof.
  assert (E : enemies two_bullets_world = [1; 2; 3; 4; 5]%nat)
    by (vm_compute; reflexivity).
  assert (B : bullets two_bullets_world = [6; 7]%nat)
    by (vm_compute; reflexivity).
  refine (proj2 (proj2 (X15_expiry_makes_the_loop_skip_a_bullet idle_frame
            6%nat 7%nat [] (bullet_obj two_bullets_world !!! 6%nat)
            (bullet_obj two_bullets_world !!! 7%nat) two_bullets_world
            B _ _ _ _ _))).
  - rewrite B. apply (bool_decide_unpack (NoDup [6; 7]%nat)).
    vm_compute. exact I.
  - vm_compute. reflexivity.
  - vm_compute. reflexivity.
  - vm_compute. reflexivity.
  - rewrite E.
    repeat (apply Forall_cons; split; [vm_compute; reflexivity |]).
    apply Forall_nil_2.
Defined.

(** * Further properties: ageing the particles *)

Lemma age_particle_run self x g q d :
  particle_obj g !! x = Some q ->
  emitter_obj g !! self = Some d ->
  age_particle self x g =
    if Qle_bool (p_duration q - 1) 0 then
      match list_remove x (dp_particles d) with
      | Some l => (expired self x l d (aged x q g), Ok tt)
      | None => (aged x q g, Raise ValueError)
      end
    else (aged x q g, Ok tt).
Proof.
  intros Hq Hd. unfold age_particle.
  cbv beta iota zeta delta [bind random_draw upd_particle modify gets].
  cbn [set_rand_pos set_particle_obj particle_obj emitter_obj].
  rewrite (alter_alt_Some _ _ _ _ Hq), lookup_total_insert_eq.
  cbn [p_duration]. fold (aged x q g).
  destruct (Qle_bool (p_duration q - 1) 0); [| reflexivity].
  unfold remove_from, space_remove, modify.
  assert (Hd' : emitter_obj (aged x q g) !! self = Some d) by exact Hd.
  rewrite (lookup_total_correct _ _ _ Hd').
  destruct (list_remove x (dp_particles d)) as [l |]; [| reflexivity].
  unfold expired. rewrite (alter_alt_Some _ _ _ _ Hd'). reflexivity.
Qed.

Lemma age_particles (self : ref) (xs : list ref) :
  forall g kept d,
    emitter_obj g !! self = Some d ->
    dp_particles d = kept ++ xs ->
    NoDup (kept ++ xs) ->
    (forall p, p ∈ xs -> is_Some (particle_obj g !! p)) ->
    exists g',
      for_each xs (age_particle self) g = (g', Ok tt) /\
      emitter_obj g' !! self =
        Some (set_dp_particles (kept ++ List.filter (alive_after g) xs) d) /\
      particles g' = particles g /\
      (forall p, p ∈ xs ->
         particle_obj g' !!! p =
           mkParticle (p_duration (particle_obj g !!! p) - 1)%Q) /\
      (forall p, p ∉ xs -> particle_obj g' !!! p = particle_obj g !!! p).
Proof.
  induction xs as [| x xs IH]; intros g kept d Hd Hparts Hnd Hheap.
  - exists g. cbn. rewrite app_nil_r in *.
    split; [reflexivity |]. split.
    + rewrite Hd, <- Hparts. destruct d; reflexivity.
    + split; [reflexivity |]. split; [intros p Hp; inversion Hp | auto].
  - assert (Hx : is_Some (particle_obj g !! x)) by (apply Hheap; left).
    destruct Hx as [q Hq].
    assert (Hxk : (x ∉ kept) /\ (x ∉ xs)).
    { apply NoDup_app in Hnd as (_ & H1 & H2).
      apply NoDup_cons in H2 as [H2 _]. split; [| exact H2].
      intros H. apply (H1 x H). left. }
    destruct Hxk as [Hxk Hxx].
    assert (Hnd' : NoDup (kept ++ xs)).
    { apply NoDup_app in Hnd as (Hk & H1 & H2).
      apply NoDup_cons in H2 as [_ H2]. apply NoDup_app.
      split; [exact Hk |]. split; [| exact H2].
      intros y Hy Hy'. apply (H1 y Hy). right. exact Hy'. }
    assert (Haged_obj : forall w,
              particle_obj w = particle_obj (aged x q g) ->
              (forall p, p ∈ xs -> is_Some (particle_obj w !! p)) /\
              List.filter (alive_after w) xs =
                List.filter (alive_after g) xs /\
              particle_obj w !!! x = mkParticle (p_duration q - 1)%Q /\
              (forall p, p <> x ->
                 particle_obj w !!! p = particle_obj g !!! p)).
    { intros w Hw. rewrite Hw. unfold aged. cbn [particle_obj set_particle_obj].
      split; [| split; [| split]].
      - intros p Hp. apply lookup_insert_is_Some'. right.
        apply Hheap. right. exact Hp.
      - apply List.filter_ext_in. intros p Hp. unfold alive_after.
        rewrite Hw. unfold aged. cbn [particle_obj set_particle_obj].
        rewrite lookup_total_insert_ne; [reflexivity |].
        intros ->. apply Hxx, list_elem_of_In, Hp.
      - apply lookup_total_insert_eq.
      - intros p Hp. apply lookup_total_insert_ne. congruence. }
    assert (Hf : List.filter (alive_after g) (x :: xs) =
                 if negb (Qle_bool (p_duration q - 1) 0)
                 then x :: List.filter (alive_after g) xs
                 else List.filter (alive_after g) xs).
    { assert (Hax : alive_after g x = negb (Qle_bool (p_duration q - 1) 0)).
      { unfold alive_after. rewrite (lookup_total_correct _ _ _ Hq).
        reflexivity. }
      cbn. rewrite Hax. reflexivity. }
    rewrite Hf. cbn [for_each]. unfold bind at 1. rewrite (age_particle_run self x g q d Hq Hd).
    destruct (Qle_bool (p_duration q - 1) 0) eqn:E; cbn [negb].
    + rewrite Hparts, (list_remove_middle x kept xs Hxk).
      set (g1 := expired self x (kept ++ xs) d (aged x q g)).
      destruct (Haged_obj g1 eq_refl) as (Hheap1 & Hfilter & Hx1 & Hother).
      destruct (IH g1 kept (set_dp_particles (kept ++ xs) d))
        as (g' & Hrun & Hem & Hps & Haged & Hsame);
        [apply lookup_insert_eq | reflexivity | exact Hnd' | exact Hheap1 |].
      exists g'. split; [exact Hrun |].
      rewrite Hem, Hfilter. split; [reflexivity |].
      split; [exact Hps |]. split.
      * intros p Hp.
        apply elem_of_cons in Hp as [-> | Hp].
        -- rewrite (Hsame x Hxx), Hx1, (lookup_total_correct _ _ _ Hq).
           reflexivity.
        -- rewrite (Haged p Hp), Hother; [reflexivity |].
           intros ->. contradiction.
      * intros p Hp. apply not_elem_of_cons in Hp as [Hne Hp].
        rewrite (Hsame p Hp). apply Hother, Hne.
    + set (g1 := aged x q g).
      destruct (Haged_obj g1 eq_refl) as (Hheap1 & Hfilter & Hx1 & Hother).
      destruct (IH g1 (kept ++ [x]) d)
        as (g' & Hrun & Hem & Hps & Haged & Hsame);
        [exact Hd | rewrite Hparts, <- app_assoc; reflexivity
         | rewrite <- app_assoc; exact Hnd | exact Hheap1 |].
      exists g'. split; [exact Hrun |].
      rewrite Hem, Hfilter, <- app_assoc. split; [reflexivity |].
      split; [exact Hps |]. split.
      * intros p Hp.
        apply elem_of_cons in Hp as [-> | Hp].
        -- rewrite (Hsame x Hxx), Hx1, (lookup_total_correct _ _ _ Hq).
           reflexivity.
        -- rewrite (Haged p Hp), Hother; [reflexivity |].
           intros ->. contradiction.
      * intros p Hp. apply not_elem_of_cons in Hp as [Hne Hp].
        rewrite (Hsame p Hp). apply Hother, Hne.
Qed.

(** X16: [DeathParticles.update] makes every
    particle of the emitter one frame older and keeps, in their order,
    exactly the particles that still have time left.  When none is left
    the emitter takes itself out of [Game.particles], which raises
    [ValueError] if it is not listed there. *)
Theorem X16_update_ages_and_drops_expired (self : ref) (g : Game)
    (d : DeathParticles) :
  emitter_obj g !! self = Some d ->
  NoDup (dp_particles d) ->
  Forall (fun p => is_Some (particle_obj g !! p)) (dp_particles d) ->
  let g' := fst (DeathParticles_update self g) in
  let survivors := List.filter (alive_after g) (dp_particles d) in
  dp_particles (emitter_obj g' !!! self) = survivors /\
  Forall
    (fun p =>
       particle_obj g' !!! p =
         mkParticle (p_duration (particle_obj g !!! p) - 1)%Q)
    (dp_particles d) /\
  (survivors <> [] ->
     snd (DeathParticles_update self g) = Ok tt /\
     particles g' = particles g) /\
  (survivors = [] -> self ∈ particles g ->
     snd (DeathParticles_update self g) = Ok tt /\
     list_remove self (particles g) = Some (particles g')) /\
  (survivors = [] -> self ∉ particles g ->
     snd (DeathParticles_update self g) = Raise ValueError).
Proof.
  intros Hd Hnd Hheap g' survivors. subst g' survivors.
  rewrite Forall_forall in Hheap.
  destruct (age_particles self (dp_particles d) g [] d Hd eq_refl Hnd Hheap)
    as (g1 & Hrun & Hem & Hps & Haged & _).
  cbn [app] in Hem.
  unfold DeathParticles_update.
  change (fun p : ref =>
            do _angle <- random_draw;
            upd_particle p (fun q => mkParticle (p_duration q - 1)%Q);;
            do q <- gets (fun g0 => particle_obj g0 !!! p);
            if Qle_bool (p_duration q) 0
            then
              remove_from (fun g0 => dp_particles (emitter_obj g0 !!! self))
                (fun l g0 =>
                   set_emitter_obj
                     (alter (set_dp_particles l) self (emitter_obj g0)) g0)
                p;;
              space_remove p
            else ret tt)
    with (age_particle self).
  cbv beta iota zeta delta [bind get_emitter gets].
  rewrite (lookup_total_correct _ _ _ Hd), Hrun.
  rewrite (lookup_total_correct _ _ _ Hem).
  cbn [dp_particles set_dp_particles].
  destruct (List.filter (alive_after g) (dp_particles d)) as [| s l] eqn:Ef.
  - cbn [length Nat.eqb]. unfold remove_death_particle, remove_from.
    rewrite Hps.
    destruct (list_remove self (particles g)) as [lp |] eqn:El;
      cbn [fst snd set_particles emitter_obj particle_obj particles].
    + rewrite (lookup_total_correct _ _ _ Hem). cbn [dp_particles set_dp_particles].
      split; [reflexivity |].
      split; [apply Forall_forall; exact Haged |].
      split; [intros H; contradiction |].
      split; [intros _ _; split; reflexivity |].
      intros _ Hout. rewrite (list_remove_not_elem_of _ _ Hout) in El.
      discriminate.
    + rewrite (lookup_total_correct _ _ _ Hem). cbn [dp_particles set_dp_particles].
      split; [reflexivity |].
      split; [apply Forall_forall; exact Haged |].
      split; [intros H; contradiction |].
      split; [| intros _ _; reflexivity].
      intros _ Hin. destruct (list_remove_elem_of _ _ Hin) as [lp Hlp].
      rewrite Hlp in El. discriminate.
  - cbn [length Nat.eqb ret fst snd].
    rewrite (lookup_total_correct _ _ _ Hem). cbn [dp_particles set_dp_particles].
    split; [reflexivity |].
    split; [apply Forall_forall; exact Haged |].
    split; [intros _; split; [reflexivity | exact Hps] |].
    split; intros H; discriminate.
Qed.

Lemma X16_update_ages_and_drops_expired_witness :
  dp_particles
    (emitter_obj (fst (DeathParticles_update 6%nat emitter_world)) !!! 6%nat) =
  List.filter (alive_after emitter_world)
    (dp_particles (emitter_obj emitter_world !!! 6%nat)).
Proof.
  refine (proj1 (X16_update_ages_and_drops_expired 6%nat emitter_world
                   (emitter_obj emitter_world !!! 6%nat) _ _ _)).
  - vm_compute. reflexivity.
  - apply (bool_decide_unpack _). vm_compute. exact I.
  - apply (bool_decide_unpack _). vm_compute. exact I.
Defined.

(** * Further properties: drawing *)

(** X17: in every run of the game a listed enemy
    is drawn in the colour of its lives, cyan, yellow, pink or red, and
    never in the brown of an enemy without lives. *)
Theorem X17_listed_enemies_are_never_brown (player_mass : Q)
    (rnd : nat -> Q) (frames : list Frame) :
  Forall
    (fun r =>
       let c := Enemy_get_color
                  (enemy_obj (reached player_mass rnd frames) !!! r) in
       In c [COLOR_CYAN; COLOR_YELLOW; COLOR_PINK; COLOR_RED])
    (enemies (reached player_mass rnd frames)).
Proof.
  destruct (run_enemies_wf frames (Game_init player_mass rnd)
              (Game_init_enemies_wf player_mass rnd)) as (_ & Hdom & Hall).
  apply Forall_forall. intros r Hr. cbv zeta.
  destruct (Hdom r Hr) as [e He].
  destruct (Hall r e He) as [Hrange Hiff].
  rewrite (lookup_total_correct _ _ _ He).
  assert (Hpos : 0 < lives e) by (apply Hiff, Hr).
  unfold Enemy_get_color.
  destruct (lives e =? 4) eqn:E4; [cbn; auto |].
  destruct (lives e =? 3) eqn:E3; [cbn; auto |].
  destruct (lives e =? 2) eqn:E2; [cbn; auto |].
  destruct (lives e =? 1) eqn:E1; [cbn; auto |].
  apply Z.eqb_neq in E4, E3, E2, E1. lia.
Qed.

(** X18: the sprite cell [Player.draw] blits is
    always one of the four 8x8 cells of the strip: its offset is 0, 8, 16
    or 24, also for a negative position, and its width is 8 or -8. *)
Theorem X18_player_sprite_stays_in_the_strip (bb : Q * Q * Q * Q)
    (self : Player) :
  In (blt_u (Player_draw bb self)) [0; 8; 16; 24] /\
  In (blt_w (Player_draw bb self)) [8; -8] /\
  blt_v (Player_draw bb self) = 0 /\ blt_h (Player_draw bb self) = 8.
Proof.
  unfold Player_draw. destruct bb as [[[x y] r] t]. cbn [blt_u blt_w blt_v blt_h].
  split; [| split; [| split; reflexivity]].
  - pose proof (Z.mod_pos_bound (int (vx (p_position self) / 2)) 4
                  ltac:(lia)) as H.
    set (idx := int (vx (p_position self) / 2) mod 4) in *.
    assert (Hc : idx = 0 \/ idx = 1 \/ idx = 2 \/ idx = 3) by lia.
    destruct Hc as [-> | [-> | [-> | ->]]]; cbn; auto.
  - destruct (Qle_bool 0 (vx (velocity self))); cbn; auto.
Qed.
